(** * A shallow embedding of the [math] linear-algebra kernel

    The C++ sources embedded here are [sequence.hpp], [numerical_table.hpp],
    [det.hpp], [matrix.hpp] and [linear_equations.hpp].

    Conventions of the embedding.
    - [size_t] values are integers of [Z] in the range [0, 2^64); every
      subtraction or product that can leave the range is wrapped by [wrap].
    - [std::vector<T>] is [list T]; [operator[]] outside the vector is
      undefined behaviour, [at] outside the vector throws.
    - [std::optional<T>] is [option T]; [value()] on an empty optional throws
      [bad_optional_access], [operator*] on an empty optional is undefined
      behaviour.
    - A C++ call is a computation of type [outcome A]: it returns a value,
      lets an exception propagate, terminates the process (an exception that
      leaves a [noexcept] function), or has undefined behaviour.
    - The [do ... while (next_permutation(...))] loop of
      [general_calculate] runs on a budget of rounds, [fuel]; [OutOfFuel]
      reports a budget that was too small, and the budget that suffices is
      proved below.
    - The element type [T] of the templates is a type with the operations
      of the class [Element].  Every instantiation in the repository is
      [double]; the instance [dbl] models it without rounding.  The
      functions that return [double] whatever [T] is ([general_calculate],
      [elimination_calculate]) return [T] here. *)

From Stdlib Require Import ZArith QArith List Bool Lia Arith Sorted Permutation.
Import ListNotations.
Open Scope Z_scope.

(** ** C++ run-time behaviour *)

Inductive exn : Type :=
| invalid_argument
| bad_optional_access
| out_of_range.

Inductive outcome (A : Type) : Type :=
| Val (a : A)          (* normal completion *)
| Throw (e : exn)      (* an exception propagates to the caller *)
| Terminate            (* std::terminate: an exception left a noexcept function *)
| Undefined            (* undefined behaviour *)
| OutOfFuel.           (* the model's loop budget ran out; not a behaviour of the program *)

Arguments Val {A} a.
Arguments Throw {A} e.
Arguments Terminate {A}.
Arguments Undefined {A}.
Arguments OutOfFuel {A}.

Definition bind {A B : Type} (c : outcome A) (k : A -> outcome B) : outcome B :=
  match c with
  | Val a => k a
  | Throw e => Throw e
  | Terminate => Terminate
  | Undefined => Undefined
  | OutOfFuel => OutOfFuel
  end.

Notation "x <- c ;; k" := (bind c (fun x => k))
  (at level 61, c at next level, right associativity).
Notation "c ;;; k" := (bind c (fun _ => k))
  (at level 61, right associativity).

(** The body of a function declared [noexcept]. *)
Definition noexcept {A : Type} (c : outcome A) : outcome A :=
  match c with
  | Throw _ => Terminate
  | other => other
  end.

(** [size_t] arithmetic. *)
Definition wrap (x : Z) : Z := x mod 2 ^ 64.

(** [std::optional]: [o.value()] and [*o]. *)
Definition value {A : Type} (o : option A) : outcome A :=
  match o with
  | Some a => Val a
  | None => Throw bad_optional_access
  end.

Definition deref {A : Type} (o : option A) : outcome A :=
  match o with
  | Some a => Val a
  | None => Undefined
  end.

(** [std::vector]: [v[i]], [v[i] = x], [v.at(i)], [v.resize(n)] and
    [v.erase(v.begin() + i)]. *)
Definition in_bounds {A : Type} (v : list A) (i : Z) : bool :=
  (0 <=? i) && (i <? Z.of_nat (length v)).

Definition vec_index {A : Type} (v : list A) (i : Z) : outcome A :=
  if in_bounds v i then
    match nth_error v (Z.to_nat i) with
    | Some a => Val a
    | None => Undefined
    end
  else Undefined.

Fixpoint list_update {A : Type} (v : list A) (n : nat) (x : A) : list A :=
  match v, n with
  | [], _ => []
  | _ :: v', O => x :: v'
  | a :: v', S n' => a :: list_update v' n' x
  end.

Definition vec_store {A : Type} (v : list A) (i : Z) (x : A) : outcome (list A) :=
  if in_bounds v i then Val (list_update v (Z.to_nat i) x) else Undefined.

Definition vec_at {A : Type} (v : list A) (i : Z) : outcome A :=
  if in_bounds v i then
    match nth_error v (Z.to_nat i) with
    | Some a => Val a
    | None => Throw out_of_range
    end
  else Throw out_of_range.

Definition vec_resize {A : Type} (fill : A) (n : Z) (v : list A) : list A :=
  firstn (Z.to_nat n) v ++ repeat fill (Z.to_nat n - length v).

Definition vec_erase {A : Type} (v : list A) (i : Z) : outcome (list A) :=
  if in_bounds v i then Val (firstn (Z.to_nat i) v ++ skipn (S (Z.to_nat i)) v)
  else Undefined.

Definition vec_size {A : Type} (v : list A) : Z := Z.of_nat (length v).

(** [for (size_t i{lo}; i <= hi; ++i) body], threading the state [s]. *)
Fixpoint for_count {S : Type} (n : nat) (i : Z) (body : Z -> S -> outcome S) (s : S)
  : outcome S :=
  match n with
  | O => Val s
  | Datatypes.S n' => s' <- body i s ;; for_count n' (i + 1) body s'
  end.

Definition for_loop {S : Type} (lo hi : Z) (body : Z -> S -> outcome S) (s : S)
  : outcome S :=
  for_count (Z.to_nat (hi + 1 - lo)) lo body s.

(** [for (size_t i{lo}; i < hi; ++i) body]. *)
Definition for_loop_lt {S : Type} (lo hi : Z) (body : Z -> S -> outcome S) (s : S)
  : outcome S :=
  for_count (Z.to_nat (hi - lo)) lo body s.

(** ** The element type *)

Class Element (T : Type) : Type := {
  e_zero : T;                  (* T{}, T(0), and the literal 0 in comparisons *)
  e_one : T;                   (* T(1) *)
  e_add : T -> T -> T;
  e_mul : T -> T -> T;
  e_neg : T -> T;
  e_div : T -> T -> T;
  e_eqb : T -> T -> bool       (* operator== *)
}.

(** [double] without rounding: the rationals with the IEEE 754 non-finite
    values, which is where a division by zero leads.  The two zeros of IEEE
    are one value here. *)
Inductive dbl : Type :=
| Fin (q : Q)
| Inf (negative : bool)
| NaN.

Definition q_sign (q : Q) : comparison := (Qnum q ?= 0)%Z.

Definition dbl_neg (a : dbl) : dbl :=
  match a with
  | Fin q => Fin (Qred (Qopp q))
  | Inf s => Inf (negb s)
  | NaN => NaN
  end.

Definition dbl_add (a b : dbl) : dbl :=
  match a, b with
  | Fin p, Fin q => Fin (Qred (Qplus p q))
  | Fin _, Inf s => Inf s
  | Inf s, Fin _ => Inf s
  | Inf s, Inf s' => if Bool.eqb s s' then Inf s else NaN
  | _, _ => NaN
  end.

Definition inf_times (s : bool) (q : Q) : dbl :=
  match q_sign q with
  | Eq => NaN
  | Gt => Inf s
  | Lt => Inf (negb s)
  end.

Definition dbl_mul (a b : dbl) : dbl :=
  match a, b with
  | Fin p, Fin q => Fin (Qred (Qmult p q))
  | Fin p, Inf s => inf_times s p
  | Inf s, Fin q => inf_times s q
  | Inf s, Inf s' => Inf (xorb s s')
  | _, _ => NaN
  end.

Definition dbl_div (a b : dbl) : dbl :=
  match a, b with
  | Fin p, Fin q =>
      match q_sign q with
      | Eq => inf_times false p
      | _ => Fin (Qred (Qdiv p q))
      end
  | Fin _, Inf _ => Fin 0%Q
  | Inf s, Fin q =>
      match q_sign q with
      | Lt => Inf (negb s)
      | _ => Inf s
      end
  | _, _ => NaN
  end.

Definition dbl_eqb (a b : dbl) : bool :=
  match a, b with
  | Fin p, Fin q => Qeq_bool p q
  | Inf s, Inf s' => Bool.eqb s s'
  | _, _ => false
  end.

#[export] Instance dbl_Element : Element dbl := {
  e_zero := Fin 0%Q;
  e_one := Fin 1%Q;
  e_add := dbl_add;
  e_mul := dbl_mul;
  e_neg := dbl_neg;
  e_div := dbl_div;
  e_eqb := dbl_eqb
}.

(** A [double] literal with an integer value. *)
Definition dz (z : Z) : dbl := Fin (inject_Z z).

(** ** [sequence.hpp] *)

Module Sequence.
Section WithElement.
Context {T : Type} {E : Element T}.

(** [operator+]: the element-wise sum; absent when the sizes differ.
    The loop body is [result.at(i) += s2.at(i)]. *)
Fixpoint add_loop (s1 s2 : list T) : list T :=
  match s1, s2 with
  | a :: s1', b :: s2' => e_add a b :: add_loop s1' s2'
  | _, _ => s1
  end.

Definition plus (s1 s2 : list T) : option (list T) :=
  if vec_size s1 =? vec_size s2 then Some (add_loop s1 s2) else None.

(** [operator*]: every element times [k]. *)
Definition times (s1 : list T) (k : T) : list T :=
  map (fun i => e_mul i k) s1.

(** [dot]: [result += left.at(i) * T(right.at(i))] from [T{}]. *)
Fixpoint dot_loop (left right : list T) (result : T) : T :=
  match left, right with
  | a :: left', b :: right' => dot_loop left' right' (e_add result (e_mul a b))
  | _, _ => result
  end.

Definition dot (left right : list T) : option T :=
  if vec_size left =? vec_size right then Some (dot_loop left right e_zero)
  else None.

End WithElement.
End Sequence.

(** ** [numerical_table.hpp] *)

Record numerical_table (T : Type) : Type := {
  _M : Z;
  _N : Z;
  _data : list T
}.

Arguments _M {T} n.
Arguments _N {T} n.
Arguments _data {T} n.

Module Table.
Section WithElement.
Context {T : Type} {E : Element T}.

(** The constructors from an initializer list and from a vector have the
    same body: copy [data], reject a zero dimension, resize to [M * N]. *)
Definition make (M N : Z) (data : list T) : outcome (numerical_table T) :=
  if M =? 0 then Throw invalid_argument
  else if N =? 0 then Throw invalid_argument
  else Val {| _M := M; _N := N; _data := vec_resize e_zero (wrap (M * N)) data |}.

Definition get_M (t : numerical_table T) : Z := _M t.
Definition get_N (t : numerical_table T) : Z := _N t.

Definition homotype_matrix (t right : numerical_table T) : bool :=
  (get_M t =? get_M right) && (get_N t =? get_N right).

Definition square_matrix (t : numerical_table T) : bool :=
  get_M t =? get_N t.

Definition get_element (t : numerical_table T) (row column : Z)
  : outcome (option T) :=
  if (row >? get_M t) || (column >? get_N t) then Val None
  else
    let row := wrap (row - 1) in
    let column := wrap (column - 1) in
    x <- vec_index (_data t) (wrap (column * get_M t + row)) ;;
    Val (Some x).

Definition set_element (t : numerical_table T) (i j : Z) (v : T)
  : outcome (numerical_table T) :=
  if (i >? get_M t) || (j >? get_N t) then Val t
  else
    let i := wrap (i - 1) in
    let j := wrap (j - 1) in
    d <- vec_store (_data t) (wrap (j * _M t + i)) v ;;
    Val {| _M := _M t; _N := _N t; _data := d |}.

Definition get_row (t : numerical_table T) (row : Z)
  : outcome (option (list T)) :=
  noexcept
    (if row >? get_M t then Val None
     else
       line <- for_loop 1 (get_N t)
                 (fun i line =>
                    e <- get_element t row i ;;
                    x <- deref e ;;
                    vec_store line (wrap (i - 1)) x)
                 (repeat e_zero (Z.to_nat (get_N t))) ;;
       Val (Some line)).

Definition set_row (t : numerical_table T) (row : Z) (values : list T)
  : outcome (numerical_table T) :=
  noexcept
    (if row >? get_M t then Val t
     else if negb (vec_size values =? get_N t) then Val t
     else
       for_loop 1 (get_N t)
         (fun i t' =>
            x <- vec_index values (wrap (i - 1)) ;;
            set_element t' row i x)
         t).

Definition get_column (t : numerical_table T) (column : Z)
  : outcome (option (list T)) :=
  noexcept
    (if column >? get_N t then Val None
     else
       line <- for_loop 1 (_M t)
                 (fun i line =>
                    e <- get_element t i column ;;
                    x <- value e ;;
                    vec_store line (wrap (i - 1)) x)
                 (repeat e_zero (Z.to_nat (get_M t))) ;;
       Val (Some line)).

(** The guard of [set_column] compares the column with [get_M()]. *)
Definition set_column (t : numerical_table T) (column : Z) (values : list T)
  : outcome (numerical_table T) :=
  noexcept
    (if column >? get_M t then Val t
     else if negb (vec_size values =? get_M t) then Val t
     else
       for_loop 1 (get_M t)
         (fun i t' =>
            x <- vec_index values (wrap (i - 1)) ;;
            set_element t' i column x)
         t).

Definition swap_row (t : numerical_table T) (i j : Z)
  : outcome (numerical_table T) :=
  noexcept
    (if (i >? get_M t) || (j >? get_M t) then Val t
     else
       line <- get_row t i ;;
       rj <- get_row t j ;;
       vj <- deref rj ;;
       t1 <- set_row t i vj ;;
       vi <- deref line ;;
       set_row t1 j vi).

Definition swap_column (t : numerical_table T) (i j : Z)
  : outcome (numerical_table T) :=
  noexcept
    (if (i >? get_N t) || (j >? get_N t) then Val t
     else
       column <- get_column t i ;;
       cj <- get_column t j ;;
       vj <- deref cj ;;
       t1 <- set_column t i vj ;;
       vi <- deref column ;;
       set_column t1 j vi).

Definition transpose (t : numerical_table T) : outcome (numerical_table T) :=
  noexcept
    (result <- make (get_N t) (get_M t) [e_zero] ;;
     for_loop 1 (_M t)
       (fun row result =>
          for_loop 1 (_N t)
            (fun column result =>
               e <- get_element t row column ;;
               x <- deref e ;;
               set_element result column row x)
            result)
       result).

Definition set_N (t : numerical_table T) (N : Z) : numerical_table T :=
  if N =? 0 then t
  else {| _M := _M t; _N := N; _data := vec_resize e_zero (wrap (_M t * N)) (_data t) |}.

Definition set_M (t : numerical_table T) (M : Z) : outcome (numerical_table T) :=
  noexcept
    (if M =? 0 then Val t
     else
       tmp <- transpose t ;;
       transpose (set_N tmp M)).

End WithElement.
End Table.

(** ** The standard algorithms [det.hpp] calls *)

Module Std.

(** [std::iota(first, last, 1)] on a vector of [n] elements. *)
Definition iota (n : Z) : list Z := map Z.of_nat (seq 1 (Z.to_nat n)).

(** [std::next_permutation], the usual algorithm: walk back from the end
    while the range is non-increasing; at the first position [i] whose
    element is less than its successor, exchange it with the last element
    of the range that is greater, and reverse what follows [i].

    [np_swap x rs] walks [rs], the tail of the range read from its last
    element backwards, to the first element greater than [x]; it returns
    that element and the tail after the exchange, which read in this
    direction is already the reversed tail. *)
Fixpoint np_swap (x : Z) (rs : list Z) : Z * list Z :=
  match rs with
  | [] => (x, [])
  | z :: rs' =>
      if x <? z then (z, x :: rs')
      else let (w, rs'') := np_swap x rs' in (w, z :: rs'')
  end.

(** [np_scan r y suf]: [r] is the part of the range before the iterator
    [i1], reversed; [y] is the element at [i1]; [suf] is what follows it. *)
Fixpoint np_scan (r : list Z) (y : Z) (suf : list Z) : bool * list Z :=
  match r with
  | [] => (false, rev (y :: suf))
  | x :: r' =>
      if x <? y then
        let (w, rs) := np_swap x (rev (y :: suf)) in
        (true, rev r' ++ w :: rs)
      else np_scan r' x (y :: suf)
  end.

Definition next_permutation (l : list Z) : bool * list Z :=
  match rev l with
  | [] => (false, [])
  | y :: r => np_scan r y []
  end.

End Std.

(** ** [det.hpp] *)

(** [inverse_number(first, index)]: how many elements of the range
    [first, index) the element at [index] is less than. *)
Fixpoint inverse_number (before : list Z) (index : Z) (count : Z) : Z :=
  match before with
  | [] => count
  | f :: before' =>
      inverse_number before' index (if index <? f then count + 1 else count)
  end.

(** [elements_inverse_number(first, last, cmp)]: the loop
    [while (++tfirst != last) count += inverse_number()(first, tfirst)];
    [before] is the range [first, tfirst). *)
Fixpoint elements_inverse_number_loop (before rest : list Z) (count : Z) : Z :=
  match rest with
  | [] => count
  | x :: rest' =>
      elements_inverse_number_loop (before ++ [x]) rest'
        (count + inverse_number before x 0)
  end.

Definition elements_inverse_number (l : list Z) : Z :=
  match l with
  | [] => 0
  | x :: rest => elements_inverse_number_loop [x] rest 0
  end.

Record det (T : Type) : Type := { _nt : numerical_table T }.

Arguments _nt {T} d.

Module Det.
Section WithElement.
Context {T : Type} {E : Element T}.

Definition make (N : Z) (data : list T) : outcome (det T) :=
  nt <- Table.make N N data ;; Val {| _nt := nt |}.

Definition get_N (d : det T) : Z := Table.get_M (_nt d).

Definition set_element (d : det T) (i j : Z) (v : T) : outcome (det T) :=
  nt <- Table.set_element (_nt d) i j v ;; Val {| _nt := nt |}.

Definition get_element (d : det T) (i j : Z) : outcome (option T) :=
  Table.get_element (_nt d) i j.

Definition set_row (d : det T) (row : Z) (values : list T) : outcome (det T) :=
  nt <- Table.set_row (_nt d) row values ;; Val {| _nt := nt |}.

Definition get_row (d : det T) (row : Z) : outcome (option (list T)) :=
  Table.get_row (_nt d) row.

Definition set_column (d : det T) (column : Z) (values : list T) : outcome (det T) :=
  nt <- Table.set_column (_nt d) column values ;; Val {| _nt := nt |}.

Definition get_column (d : det T) (column : Z) : outcome (option (list T)) :=
  Table.get_column (_nt d) column.

Definition swap_row (d : det T) (i j : Z) : outcome (det T) :=
  nt <- Table.swap_row (_nt d) i j ;; Val {| _nt := nt |}.

(** [set_N(N)]: [_nt.set_M(N); _nt.set_N(N)]. *)
Definition set_N (d : det T) (N : Z) : outcome (det T) :=
  nt <- Table.set_M (_nt d) N ;;
  Val {| _nt := Table.set_N nt N |}.

(** [m_i_j]: the minor, row [i] and column [j] deleted. *)
Definition m_i_j (d : det T) (i j : Z) : outcome (option (det T)) :=
  noexcept
    (if (i <? 1) || (i >? get_N d) || (j <? 1) || (j >? get_N d) || (get_N d =? 1)
     then Val None
     else
       result <- make (wrap (get_N d - 1)) [e_zero] ;;
       result <- for_loop 1 (get_N d)
                   (fun index result =>
                      if index =? i then Val result
                      else
                        r <- get_row d index ;;
                        line <- deref r ;;
                        line <- vec_erase line (wrap (j - 1)) ;;
                        if index <? i then set_row result index line
                        else set_row result (wrap (index - 1)) line)
                   result ;;
       Val (Some result)).

(** [algebraic_complement_minor]: the minor with every entry negated when
    [i + j] is odd. *)
Definition algebraic_complement_minor (d : det T) (i j : Z)
  : outcome (option (det T)) :=
  m <- m_i_j d i j ;;
  result <- value m ;;
  result <- (if wrap (i + j) mod 2 =? 1 then
               for_loop 1 (get_N result)
                 (fun row result =>
                    r <- get_row result row ;;
                    line <- deref r ;;
                    set_row result row (Sequence.times line (e_neg e_one)))
                 result
             else Val result) ;;
  Val (Some result).

(** The inner loop of [general_calculate]: the product of the elements
    [(index, indices[index-1])], left as 0 at the first element that
    compares equal to 0. *)
Definition optional_eqb (o : option T) (v : T) : bool :=
  match o with
  | Some x => e_eqb x v
  | None => false
  end.

Fixpoint gc_product (n : nat) (index : Z) (d : det T) (indices : list Z) (tresult : T)
  : outcome T :=
  match n with
  | O => Val tresult
  | S n' =>
      j <- vec_index indices (wrap (index - 1)) ;;
      e <- get_element d index j ;;
      if optional_eqb e e_zero then Val e_zero
      else
        x <- deref e ;;
        gc_product n' (index + 1) d indices (e_mul tresult x)
  end.

(** The [do ... while (next_permutation(...))] loop. *)
Fixpoint gc_loop (fuel : nat) (d : det T) (indices : list Z) (result : T) : outcome T :=
  match fuel with
  | O => OutOfFuel
  | S fuel' =>
      let count := elements_inverse_number indices in
      let tresult := if count mod 2 =? 0 then e_one else e_neg e_one in
      tresult <- gc_product (Z.to_nat (get_N d)) 1 d indices tresult ;;
      let result := e_add result tresult in
      let (more, indices') := Std.next_permutation indices in
      if more then gc_loop fuel' d indices' result else Val result
  end.

Definition general_calculate (fuel : nat) (d : det T) : outcome T :=
  noexcept
    (if get_N d =? 1 then
       e <- get_element d 1 1 ;; deref e
     else gc_loop fuel d (Std.iota (get_N d)) e_zero).

(** The search loop of [elimination] with its [break]. *)
Fixpoint elimination_scan (n : nat) (r2 : Z) (r1 : Z) (d : det T) : outcome (det T) :=
  match n with
  | O => Val d
  | S n' =>
      e <- get_element d r1 r2 ;;
      x <- value e ;;
      if negb (e_eqb x e_zero) then swap_row d r1 r2
      else elimination_scan n' (r2 + 1) r1 d
  end.

Definition elimination_rows (r1 : Z) (d : det T) : outcome (det T) :=
  for_loop (r1 + 1) (get_N d)
    (fun r2 d =>
       row1 <- (r <- get_row d r1 ;; value r) ;;
       a21 <- (e <- get_element d r2 r1 ;; value e) ;;
       a11 <- (e <- get_element d r1 r1 ;; value e) ;;
       row2 <- (r <- get_row d r2 ;; value r) ;;
       sum <- value (Sequence.plus (Sequence.times row1 (e_div (e_neg a21) a11)) row2) ;;
       set_row d r2 sum)
    d.

Definition elimination (d : det T) : outcome (det T) :=
  noexcept
    (if get_N d =? 1 then Val d
     else
       for_loop_lt 1 (get_N d)
         (fun r1 d =>
            pivot <- (e <- get_element d r1 r1 ;; value e) ;;
            if e_eqb pivot e_zero then
              d <- elimination_scan (Z.to_nat (get_N d - r1)) (r1 + 1) r1 d ;;
              pivot <- (e <- get_element d r1 r1 ;; value e) ;;
              if e_eqb pivot e_zero then Val d
              else elimination_rows r1 d
            else elimination_rows r1 d)
         d).

Definition elimination_calculate (d : det T) : outcome T :=
  noexcept
    (if get_N d =? 1 then
       e <- get_element d 1 1 ;; value e
     else
       tmp <- elimination d ;;
       for_loop 1 (get_N d)
         (fun i result =>
            x <- (e <- get_element tmp i i ;; value e) ;;
            Val (e_mul result x))
         e_one).

End WithElement.
End Det.

(** ** [matrix.hpp] *)

(** [matrix<T>] derives from [numerical_table<T>] and adds no member. *)
Definition matrix (T : Type) : Type := numerical_table T.

Module Matrix.
Section WithElement.
Context {T : Type} {E : Element T}.

Definition make (M N : Z) (data : list T) : outcome (matrix T) :=
  Table.make M N data.

(** [det()]: the determinant built from the rows of a square matrix. *)
Definition det (m : matrix T) : outcome (option (det T)) :=
  noexcept
    (if negb (Table.square_matrix m) then Val None
     else
       result <- Det.make (Table.get_M m) [e_zero] ;;
       result <- for_loop 1 (Table.get_M m)
                   (fun i result =>
                      r <- Table.get_row m i ;;
                      v <- value r ;;
                      Det.set_row result i v)
                   result ;;
       Val (Some result)).

(** [operator*=(t)]: the optional returned is a copy of the receiver after
    the update; when it is absent the receiver is unchanged. *)
Definition times_assign (m : matrix T) (t : T) : outcome (option (matrix T)) :=
  noexcept
    (if e_eqb t e_zero then Val None
     else
       m' <- for_loop 1 (Table.get_M m)
               (fun i m =>
                  r <- Table.get_row m i ;;
                  v <- deref r ;;
                  Table.set_row m i (Sequence.times v t))
               m ;;
       Val (Some m')).

(** [operator*(t)], the scalar multiple. *)
Definition times (m : matrix T) (t : T) : outcome (option (matrix T)) :=
  noexcept
    (if e_eqb t e_zero then Val None
     else
       r <- times_assign m t ;;
       v <- value r ;;
       Val (Some v)).

(** [row_times(row, t)]: the row times [T(t)]. *)
Definition row_times (m : matrix T) (row : Z) (t : T) : outcome (matrix T) :=
  noexcept
    (if (row <? 1) || (row >? Table.get_M m) then Val m
     else
       r <- Table.get_row m row ;;
       v <- deref r ;;
       Table.set_row m row (Sequence.times v t)).

(** [row_add_times_row(row_1, row_2, k)]: [row_1 + k * row_2] stored as
    row [row_1]. *)
Definition row_add_times_row (m : matrix T) (row_1 row_2 : Z) (k : T)
  : outcome (matrix T) :=
  noexcept
    (if (row_1 <? 1) || (row_1 >? Table.get_M m) ||
        (row_2 <? 1) || (row_2 >? Table.get_M m) then Val m
     else
       r1 <- Table.get_row m row_1 ;;
       v1 <- deref r1 ;;
       r2 <- Table.get_row m row_2 ;;
       v2 <- deref r2 ;;
       sum <- deref (Sequence.plus v1 (Sequence.times v2 k)) ;;
       Table.set_row m row_1 sum).

(** [operator*(right)], the matrix product. *)
Definition mult (m right : matrix T) : outcome (option (matrix T)) :=
  if negb (Table.get_N m =? Table.get_M right) then Val None
  else
    result <- make (Table.get_M m) (Table.get_N right) [e_zero] ;;
    result <- for_loop 1 (Table.get_M result)
                (fun i result =>
                   for_loop 1 (Table.get_N result)
                     (fun j result =>
                        r <- Table.get_row m i ;;
                        row <- deref r ;;
                        c <- Table.get_column right j ;;
                        column <- deref c ;;
                        v <- deref (Sequence.dot row column) ;;
                        Table.set_element result i j v)
                     result)
                result ;;
    Val (Some result).

(** [adjoint()].  One thread per cell runs the body
    [result.set_element(r, c, tdet.m_i_j(r, c).value().general_calculate())];
    the threads write distinct cells and are all joined before the return,
    so the cells are filled here one after the other.  An exception that
    leaves a thread's function terminates the process. *)
Definition adjoint (fuel : nat) (m : matrix T) : outcome (option (matrix T)) :=
  if negb (Table.get_M m =? Table.get_N m) then Val None
  else if (Table.get_M m =? 1) || (Table.get_N m =? 1) then Val None
  else
    result <- make (Table.get_M m) (Table.get_N m) [e_zero] ;;
    tdet <- (d <- det m ;; value d) ;;
    result <- for_loop 1 (Table.get_M m)
                (fun i result =>
                   for_loop 1 (Table.get_N m)
                     (fun j result =>
                        noexcept
                          (ttdet <- Det.m_i_j tdet i j ;;
                           minor <- value ttdet ;;
                           v <- Det.general_calculate fuel minor ;;
                           Table.set_element result i j v))
                     result)
                result ;;
    Val (Some result).

(** [inverse()]. *)
Definition inverse (fuel : nat) (m : matrix T) : outcome (option (matrix T)) :=
  vdet <- det m ;;
  match vdet with
  | None => Val None
  | Some vdet =>
      adjoint_matrix <- (a <- adjoint fuel m ;; value a) ;;
      g <- Det.general_calculate fuel vdet ;;
      times adjoint_matrix (e_div e_one g)
  end.

End WithElement.
End Matrix.

(** ** [linear_equations.hpp] *)

Module LinearEquations.

Record linear_equations (T : Type) : Type := {
  _data : numerical_table T;
  _x : list T
}.

Arguments _data {T} l.
Arguments _x {T} l.

Section WithElement.
Context {T : Type} {E : Element T}.

(** The default constructor: [_data{1, 0, {T(1), T(0)}}]. *)
Definition make_default : outcome (linear_equations T) :=
  noexcept
    (d <- Table.make 1 0 [e_one; e_zero] ;;
     Val {| _data := d; _x := [] |}).

Definition make (m n : Z) (data : list T) : outcome (linear_equations T) :=
  noexcept
    (d <- Table.make m n data ;;
     Val {| _data := d; _x := [] |}).

(** [calculate()], Cramer's rule. *)
Definition calculate (fuel : nat) (l : linear_equations T)
  : outcome (linear_equations T) :=
  noexcept
    (let data := _data l in
     if Table.get_M data <=? 1 then Val l
     else
       coefficient_det <- Det.make (wrap (Table.get_N data - 1)) [e_zero] ;;
       augmented_det <- Det.make (wrap (Table.get_N data - 1)) [e_zero] ;;
       dets <- for_loop_lt 1 (Table.get_N data)
                 (fun i dets =>
                    c <- Table.get_column data i ;;
                    v <- value c ;;
                    cd <- Det.set_column (fst dets) i v ;;
                    ad <- Det.set_column (snd dets) i v ;;
                    Val (cd, ad))
                 (coefficient_det, augmented_det) ;;
       x <- Det.general_calculate fuel (fst dets) ;;
       if e_eqb x e_zero then Val {| _data := data; _x := [] |}
       else
         st <- for_loop_lt 1 (Table.get_N data)
                 (fun i st =>
                    c <- Table.get_column data (Table.get_N data) ;;
                    v <- deref c ;;
                    ad <- Det.set_column (fst st) i v ;;
                    ad <- (if negb (i =? 1) then
                             c' <- Table.get_column data (wrap (i - 1)) ;;
                             v' <- deref c' ;;
                             Det.set_column ad (wrap (i - 1)) v'
                           else Val ad) ;;
                    g <- Det.general_calculate fuel ad ;;
                    Val (ad, snd st ++ [e_div g x]))
                 (snd dets, []) ;;
         Val {| _data := data; _x := snd st |}).

(** [calculate_inverse()], through the inverse of the coefficient matrix. *)
Definition calculate_inverse (fuel : nat) (l : linear_equations T)
  : outcome (linear_equations T) :=
  noexcept
    (let data := _data l in
     if Table.get_M data <=? 1 then Val l
     else
       ceofficient <- Matrix.make (Table.get_M data) (wrap (Table.get_N data - 1))
                        [e_zero] ;;
       constant <- (c <- Table.get_column data (Table.get_N data) ;;
                    v <- value c ;;
                    Matrix.make (Table.get_M data) 1 v) ;;
       ceofficient <- for_loop_lt 1 (Table.get_N data)
                        (fun i ceofficient =>
                           c <- Table.get_column data i ;;
                           v <- value c ;;
                           Table.set_column ceofficient i v)
                        ceofficient ;;
       inv <- (r <- Matrix.inverse fuel ceofficient ;; value r) ;;
       x <- (r <- Matrix.mult inv constant ;; value r) ;;
       column <- (c <- Table.get_column x 1 ;; value c) ;;
       Val {| _data := data; _x := column |}).

(** [x_n(n)]. *)
Definition x_n (l : linear_equations T) (n : Z) : outcome (option T) :=
  noexcept
    (if n >=? vec_size (_x l) then Val None
     else
       v <- vec_index (_x l) (wrap (n - 1)) ;;
       Val (Some v)).

End WithElement.
End LinearEquations.

(** ** The expansion by permutations, as the specification words it *)

Module Leibniz.

(** Every way of taking one element out of a list, in the order of the
    list, with what is left. *)
Fixpoint picks (l : list Z) : list (Z * list Z) :=
  match l with
  | [] => []
  | x :: q => (x, q) :: map (fun yr => (fst yr, x :: snd yr)) (picks q)
  end.

(** The permutations of a list of [n] elements: those that start with its
    first element, then those that start with its second, and so on.  On an
    increasing list this is the lexicographic order. *)
Fixpoint perms_of (n : nat) (l : list Z) : list (list Z) :=
  match n with
  | O => [[]]
  | S n' => flat_map (fun xr => map (cons (fst xr)) (perms_of n' (snd xr))) (picks l)
  end.

Definition lex_permutations (N : Z) : list (list Z) :=
  perms_of (Z.to_nat N) (Std.iota N).

(** The lexicographic order on index vectors. *)
Fixpoint lex_lt (p q : list Z) : Prop :=
  match p, q with
  | [], [] => False
  | [], _ :: _ => True
  | _ :: _, [] => False
  | x :: p', y :: q' => x < y \/ (x = y /\ lex_lt p' q')
  end.

(** The number of inversions: the pairs of positions whose elements are in
    decreasing order. *)
Fixpoint inversions (p : list Z) : Z :=
  match p with
  | [] => 0
  | x :: q => Z.of_nat (length (filter (fun y => y <? x) q)) + inversions q
  end.

Section WithElement.
Context {T : Type} {E : Element T}.

Definition sign (p : list Z) : T :=
  if Z.even (inversions p) then e_one else e_neg e_one.

(** Element [(i, j)] of a determinant, 1-based, column-major. *)
Definition entry (d : det T) (i j : Z) : T :=
  nth (Z.to_nat ((j - 1) * Det.get_N d + (i - 1))) (_data (_nt d)) e_zero.

(** The elements [(i, p[i])] for [i] from 1 to the order. *)
Definition selected (d : det T) (p : list Z) : list T :=
  map (fun i => entry d i (nth (Z.to_nat (i - 1)) p 0)) (Std.iota (Det.get_N d)).

(** One term: the signed product of the selected elements, or 0 when one
    of them equals 0. *)
Definition term (d : det T) (p : list Z) : T :=
  if existsb (fun e => e_eqb e e_zero) (selected d p) then e_zero
  else fold_left e_mul (selected d p) (sign p).

Definition expansion (d : det T) : T :=
  if Det.get_N d =? 1 then entry d 1 1
  else fold_left e_add (map (term d) (lex_permutations (Det.get_N d))) e_zero.

End WithElement.
End Leibniz.

(** A determinant as the constructor leaves it: a positive order [N] that
    [size_t] holds, and [N * N] elements. *)
Definition well_formed {T : Type} (d : det T) : Prop :=
  1 <= _M (_nt d) /\
  _N (_nt d) = _M (_nt d) /\
  _M (_nt d) * _M (_nt d) < 2 ^ 64 /\
  Z.of_nat (length (_data (_nt d))) = _M (_nt d) * _M (_nt d).

(** ** Definitions used by the proofs *)

(** [nondecr y r]: the list [y :: r] never steps down. *)
Fixpoint nondecr (y : Z) (r : list Z) : Prop :=
  match r with
  | [] => True
  | z :: r' => y <= z /\ nondecr z r'
  end.

(** [run a b L]: [L] lists what [next_permutation] produces step by step
    from [a], up to [b]. *)
Inductive run : list Z -> list Z -> list (list Z) -> Prop :=
| run_one a : run a a [a]
| run_step a a' b L :
    Std.next_permutation a = (true, a') -> run a' b L -> run a b (a :: L).

(** How many elements of [before] are greater than [x], and the sum of
    these counts over the elements of [rest]. *)
Definition greater_in (before : list Z) (x : Z) : Z :=
  Z.of_nat (length (filter (fun f => x <? f) before)).

Fixpoint cross (before rest : list Z) : Z :=
  match rest with
  | [] => 0
  | x :: rest' => greater_in before x + cross before rest'
  end.

(** [range i k] is [i; i+1; ...], [k] elements. *)
Fixpoint range (i : Z) (k : nat) : list Z :=
  match k with
  | O => []
  | S k' => i :: range (i + 1) k'
  end.

(** An index vector for order [N]: [N] entries, each in [1, N]. *)
Definition index_vector (N : Z) (p : list Z) : Prop :=
  Z.of_nat (length p) = N /\ forall j, In j p -> 1 <= j <= N.

(** ** Tables as the operations keep them *)

(** A table as the constructor leaves it: positive dimensions whose product
    [size_t] holds, and that many elements. *)
Definition table_wf {T : Type} (t : numerical_table T) : Prop :=
  1 <= _M t /\ 1 <= _N t /\ _M t * _N t < 2 ^ 64 /\
  Z.of_nat (length (_data t)) = _M t * _N t.

Definition same_shape {T : Type} (t t' : numerical_table T) : Prop :=
  _M t' = _M t /\ _N t' = _N t.

(** Element [(i, j)], 1-based, of the column-major store. *)
Definition cell {T : Type} {E : Element T} (t : numerical_table T) (i j : Z) : T :=
  nth (Z.to_nat ((j - 1) * _M t + (i - 1))) (_data t) e_zero.

Definition row_of {T : Type} {E : Element T} (t : numerical_table T) (r : Z) : list T :=
  map (fun j => cell t r j) (range 1 (Z.to_nat (_N t))).

Definition column_of {T : Type} {E : Element T} (t : numerical_table T) (c : Z) : list T :=
  map (fun i => cell t i c) (range 1 (Z.to_nat (_M t))).

(** The table after [_data[(j-1) * _M + (i-1)] = v]. *)
Definition stored {T : Type} (t : numerical_table T) (i j : Z) (v : T)
  : numerical_table T :=
  {| _M := _M t; _N := _N t;
     _data := list_update (_data t) (Z.to_nat ((j - 1) * _M t + (i - 1))) v |}.



(** Closes a side condition on a concrete input by evaluation. *)
Ltac concrete := repeat split; vm_compute; first [easy | lia].

(** ** Concrete tables, determinants, matrices and systems *)

Module Examples.

(** [det<double>(2, {3, 2, -2, 1})]. *)
Definition det_3_2_m2_1 : det dbl :=
  {| _nt := {| _M := 2; _N := 2; _data := map dz [3; 2; -2; 1] |} |}.

(** The determinant of the test program:
    [det<double>(4, {6,1,1,1, 6,3,1,1, 6,1,3,1, 6,1,1,3})]. *)
Definition det_order_4 : det dbl :=
  {| _nt := {| _M := 4; _N := 4;
               _data := map dz [6; 1; 1; 1; 6; 3; 1; 1; 6; 1; 3; 1; 6; 1; 1; 3] |} |}.

(** [det<double>(2, {0, 1, 1, 0})]: rows (0 1) and (1 0). *)
Definition det_exchange : det dbl :=
  {| _nt := {| _M := 2; _N := 2; _data := map dz [0; 1; 1; 0] |} |}.

(** [det<double>(2, {0, 1, 0, 1})]: rows (0 0) and (1 1). *)
Definition det_zero_row : det dbl :=
  {| _nt := {| _M := 2; _N := 2; _data := map dz [0; 1; 0; 1] |} |}.

(** [det<double>(2, {0, 0, 1, 2})]: rows (0 1) and (0 2). *)
Definition det_zero_column : det dbl :=
  {| _nt := {| _M := 2; _N := 2; _data := map dz [0; 0; 1; 2] |} |}.

(** [matrix<double>(2, 2, {1, 3, 2, 4})]: rows (1 2) and (3 4). *)
Definition matrix_1234 : matrix dbl :=
  {| _M := 2; _N := 2; _data := map dz [1; 3; 2; 4] |}.

(** [matrix<double>(2, 2, {1, 2, 2, 4})]: rows (1 2) and (2 4), singular. *)
Definition matrix_singular : matrix dbl :=
  {| _M := 2; _N := 2; _data := map dz [1; 2; 2; 4] |}.

(** [matrix<double>(1, 1, {2})]. *)
Definition matrix_2 : matrix dbl :=
  {| _M := 1; _N := 1; _data := [dz 2] |}.

(** [numerical_table<double>(2, 2, {1, 2, 3, 4})]: rows (1 3) and (2 4). *)
Definition table_2x2 : numerical_table dbl :=
  {| _M := 2; _N := 2; _data := map dz [1; 2; 3; 4] |}.

(** [numerical_table<double>(1, 2, {1, 2})]: the single row (1 2). *)
Definition table_1x2 : numerical_table dbl :=
  {| _M := 1; _N := 2; _data := map dz [1; 2] |}.

(** [numerical_table<double>(2, 1, {1, 2})]: the single column (1 2). *)
Definition table_2x1 : numerical_table dbl :=
  {| _M := 2; _N := 1; _data := map dz [1; 2] |}.

(** [linear_equations<double>(2, 3, {1, 2, 2, 4, 1, 1})]: the equations
    x + 2y = 1 and 2x + 4y = 1. *)
Definition system_singular : LinearEquations.linear_equations dbl :=
  {| LinearEquations._data := {| _M := 2; _N := 3; _data := map dz [1; 2; 2; 4; 1; 1] |};
     LinearEquations._x := [] |}.

(** [linear_equations<double>(2, 4, {1, 0, 0, 1, 1, 1, 1, 1})]: two
    equations in three unknowns. *)
Definition system_2x4 : LinearEquations.linear_equations dbl :=
  {| LinearEquations._data :=
       {| _M := 2; _N := 4; _data := map dz [1; 0; 0; 1; 1; 1; 1; 1] |};
     LinearEquations._x := [] |}.

(** The system of [test_linearmatrix]:
    [linear_equations<double>(3, 4, {1,2,3,-1,-1,2,-1,-3,-5,2,1,0})]. *)
Definition system_3x4 : LinearEquations.linear_equations dbl :=
  {| LinearEquations._data :=
       {| _M := 3; _N := 4;
          _data := map dz [1; 2; 3; -1; -1; 2; -1; -3; -5; 2; 1; 0] |};
     LinearEquations._x := [] |}.

End Examples.

(** * Facts *)

(** ** Increasing lists *)

Lemma sorted_app_inv (a b : list Z) :
  StronglySorted Z.lt (a ++ b) ->
  StronglySorted Z.lt a /\ StronglySorted Z.lt b /\
  (forall x y, In x a -> In y b -> x < y).
Proof.
  induction a as [|h a IH]; simpl; intros H.
  - repeat split; [constructor | assumption | contradiction].
  - inversion H as [|? ? Hs Hall]; subst.
    destruct (IH Hs) as (Ha & Hb & Hab).
    rewrite Forall_app in Hall. destruct Hall as [Hha Hhb].
    repeat split; [constructor; assumption | assumption |].
    intros x y [<-|Hx] Hy.
    + rewrite Forall_forall in Hhb. auto.
    + auto.
Qed.

Lemma sorted_app (a b : list Z) :
  StronglySorted Z.lt a -> StronglySorted Z.lt b ->
  (forall x y, In x a -> In y b -> x < y) ->
  StronglySorted Z.lt (a ++ b).
Proof.
  induction a as [|h a IH]; simpl; intros Ha Hb Hab; [assumption|].
  inversion Ha as [|? ? Hs Hall]; subst.
  constructor.
  - apply IH; auto.
  - rewrite Forall_app. split; [assumption|].
    rewrite Forall_forall. intros y Hy. apply Hab; auto.
Qed.

Lemma sorted_remove_middle (t v : list Z) (x : Z) :
  StronglySorted Z.lt (t ++ x :: v) -> StronglySorted Z.lt (t ++ v).
Proof.
  intros H. apply sorted_app_inv in H. destruct H as (Ht & Hxv & Hlt).
  inversion Hxv; subst.
  apply sorted_app; auto.
  intros a b Ha Hb. apply Hlt; simpl; auto.
Qed.

Lemma sorted_nondecr (y : Z) (r : list Z) :
  StronglySorted Z.lt (y :: r) -> nondecr y r.
Proof.
  revert y. induction r as [|z r IH]; simpl; intros y H; [exact I|].
  inversion H as [|? ? Hs Hall]; subst.
  inversion Hall; subst. split; [lia | auto].
Qed.

Lemma last_cons (l : list Z) (a d : Z) : last (a :: l) d = last l a.
Proof.
  revert a d. induction l as [|b l IH]; intros a d; [reflexivity|].
  change (last (a :: b :: l) d) with (last (b :: l) d).
  rewrite (IH b d), (IH b a). reflexivity.
Qed.

(** ** [std::next_permutation] *)

Lemma np_swap_found (t v : list Z) (x y : Z) :
  (forall z, In z t -> z <= x) -> x < y ->
  Std.np_swap x (t ++ y :: v) = (y, t ++ x :: v).
Proof.
  intros Ht Hxy. induction t as [|z t IH]; simpl.
  - destruct (Z.ltb_spec x y); [reflexivity | lia].
  - destruct (Z.ltb_spec x z) as [Hlt|_].
    + specialize (Ht z (or_introl eq_refl)). lia.
    + rewrite IH; [reflexivity|]. intros; apply Ht; simpl; auto.
Qed.

Lemma np_scan_prefix (r : list Z) : forall y suf q x,
  Std.np_scan r y suf = (true, q) ->
  Std.np_scan (r ++ [x]) y suf = (true, x :: q).
Proof.
  induction r as [|z r IH]; simpl; intros y suf q x H; [discriminate|].
  destruct (z <? y).
  - destruct (Std.np_swap z (rev suf ++ [y])) as [w rs].
    inversion H; subst. rewrite rev_unit. reflexivity.
  - apply IH; assumption.
Qed.

Lemma next_permutation_cons (x : Z) (p q : list Z) :
  Std.next_permutation p = (true, q) ->
  Std.next_permutation (x :: p) = (true, x :: q).
Proof.
  unfold Std.next_permutation. simpl.
  destruct (rev p) as [|y r]; [discriminate|].
  simpl. apply np_scan_prefix.
Qed.

Lemma np_scan_end (r : list Z) : forall y suf,
  nondecr y r -> Std.np_scan r y suf = (false, rev suf ++ y :: r).
Proof.
  induction r as [|z r IH]; simpl; intros y suf H.
  - reflexivity.
  - destruct H as [Hyz Hr].
    destruct (Z.ltb_spec z y); [lia|].
    rewrite IH by assumption. simpl. rewrite <- app_assoc. reflexivity.
Qed.

Lemma np_scan_pivot (r1 : list Z) : forall y suf x r',
  nondecr y r1 -> x < last r1 y ->
  Std.np_scan (r1 ++ x :: r') y suf =
  (let (w, rs) := Std.np_swap x (rev suf ++ y :: r1) in (true, rev r' ++ w :: rs)).
Proof.
  induction r1 as [|z r1 IH]; intros y suf x r' Hnd Hlast.
  - simpl in *. destruct (Z.ltb_spec x y); [reflexivity | lia].
  - destruct Hnd as [Hyz Hnd].
    change ((z :: r1) ++ x :: r') with (z :: (r1 ++ x :: r')).
    cbn [Std.np_scan]. destruct (Z.ltb_spec z y); [lia|].
    rewrite IH; [| assumption |].
    + simpl. rewrite <- app_assoc. reflexivity.
    + rewrite last_cons in Hlast. assumption.
Qed.

Lemma last_app_cons (a l : list Z) (b d : Z) : last (a ++ b :: l) d = last l b.
Proof.
  revert d. induction a as [|h a IH]; intros d; simpl app.
  - apply last_cons.
  - rewrite last_cons. apply IH.
Qed.

Lemma last_in_cons (r : list Z) (y : Z) : In (last r y) (y :: r).
Proof.
  revert y. induction r as [|z r IH]; intros y; [simpl; auto|].
  rewrite last_cons. right. apply IH.
Qed.

(** From the last permutation that starts with [x] to the first one that
    starts with the next element [y]. *)
Lemma next_permutation_carry (t v : list Z) (x y : Z) :
  StronglySorted Z.lt (t ++ x :: y :: v) ->
  Std.next_permutation (x :: rev (t ++ y :: v)) = (true, y :: t ++ x :: v).
Proof.
  intros Hs.
  destruct (sorted_app_inv _ _ Hs) as (Ht & Hxs & Hlt).
  assert (Htyv : StronglySorted Z.lt (t ++ y :: v))
    by (apply sorted_remove_middle with (x := x); assumption).
  assert (Hxy : x < y).
  { inversion Hxs as [|? ? _ Hall]; subst. inversion Hall; subst. assumption. }
  assert (Hxv : forall z, In z (y :: v) -> x < z).
  { inversion Hxs as [|? ? _ Hall]; subst. rewrite Forall_forall in Hall. exact Hall. }
  assert (Htx : forall z, In z t -> z <= x).
  { intros z Hz. apply Z.lt_le_incl. apply Hlt; simpl; auto. }
  unfold Std.next_permutation. simpl rev. rewrite rev_involutive.
  remember (t ++ y :: v) as s eqn:Es.
  destruct s as [|h r1]; [destruct t; discriminate|].
  change ((h :: r1) ++ [x]) with (h :: (r1 ++ [x])). cbv iota beta.
  rewrite np_scan_pivot.
  - simpl rev. simpl app at 1. rewrite Es.
    rewrite np_swap_found by assumption. reflexivity.
  - apply sorted_nondecr; assumption.
  - (* the last element of [t ++ y :: v] lies in [y :: v] *)
    apply Hxv. rewrite <- (last_cons r1 h 0), Es.
    rewrite last_app_cons. apply last_in_cons.
Qed.

Lemma next_permutation_last (s : list Z) :
  StronglySorted Z.lt s -> Std.next_permutation (rev s) = (false, s).
Proof.
  intros Hs. unfold Std.next_permutation. rewrite rev_involutive.
  destruct s as [|y r]; [reflexivity|].
  rewrite np_scan_end by (apply sorted_nondecr; assumption). reflexivity.
Qed.

(** ** The walk of [next_permutation] through the permutations *)

Lemma run_app a b c d L1 L2 :
  run a b L1 -> Std.next_permutation b = (true, c) -> run c d L2 ->
  run a d (L1 ++ L2).
Proof.
  intros H1 Hbc H2. induction H1 as [a|a a' b L Ha _ IH]; simpl.
  - apply run_step with (a' := c); assumption.
  - apply run_step with (a' := a'); auto.
Qed.

Lemma run_map_cons x a b L :
  run a b L -> run (x :: a) (x :: b) (map (cons x) L).
Proof.
  induction 1 as [a|a a' b L Ha _ IH]; simpl.
  - constructor.
  - apply run_step with (a' := x :: a'); [|assumption].
    apply next_permutation_cons; assumption.
Qed.

Section Blocks.
Variable n : nat.
Hypothesis IHn : forall s, length s = n -> StronglySorted Z.lt s ->
  run s (rev s) (Leibniz.perms_of n s).

Let block (xr : Z * list Z) : list (list Z) :=
  map (cons (fst xr)) (Leibniz.perms_of n (snd xr)).

Lemma run_blocks (v : list Z) : forall t x,
  StronglySorted Z.lt (t ++ x :: v) -> length (t ++ v) = n ->
  run (x :: t ++ v) (rev (t ++ x :: v))
      (flat_map block (map (fun yr => (fst yr, t ++ snd yr)) (Leibniz.picks (x :: v)))).
Proof.
  induction v as [|y v IHv]; intros t x Hs Hlen.
  - cbn [Leibniz.picks map flat_map fst snd].
    rewrite !app_nil_r in *. rewrite rev_unit.
    unfold block. cbn [fst snd]. apply run_map_cons. apply IHn; [assumption|].
    apply sorted_app_inv in Hs. tauto.
  - change (Leibniz.picks (x :: y :: v))
      with ((x, y :: v) :: map (fun yr => (fst yr, x :: snd yr)) (Leibniz.picks (y :: v))).
    cbn [map flat_map fst snd]. rewrite map_map. cbn [fst snd].
    apply run_app with (b := x :: rev (t ++ y :: v)) (c := y :: (t ++ [x]) ++ v).
    + unfold block at 1. cbn [fst snd]. apply run_map_cons. apply IHn; [assumption|].
      apply sorted_remove_middle with (x := x); assumption.
    + rewrite <- app_assoc. apply next_permutation_carry; assumption.
    + replace (t ++ x :: y :: v) with ((t ++ [x]) ++ y :: v)
        by (rewrite <- app_assoc; reflexivity).
      erewrite map_ext; [apply IHv|].
      * rewrite <- app_assoc. assumption.
      * rewrite !length_app in *. simpl in *. lia.
      * intros [a r]. cbn [fst snd]. rewrite <- app_assoc. reflexivity.
Qed.

End Blocks.

Lemma run_perms_of (n : nat) : forall s,
  length s = n -> StronglySorted Z.lt s ->
  run s (rev s) (Leibniz.perms_of n s).
Proof.
  induction n as [|n IH]; intros s Hlen Hs.
  - destruct s; [|discriminate]. constructor.
  - destruct s as [|x v]; [discriminate|].
    pose proof (run_blocks n IH v [] x Hs) as H.
    simpl in Hlen. specialize (H ltac:(simpl; lia)).
    cbn [Leibniz.perms_of].
    erewrite map_ext, map_id in H; [exact H|].
    intros [a r]; reflexivity.
Qed.

Lemma picks_permutation (l : list Z) : forall y r,
  In (y, r) (Leibniz.picks l) -> Permutation (y :: r) l.
Proof.
  induction l as [|x q IH]; simpl; intros y r H; [contradiction|].
  destruct H as [H|H].
  - inversion H; subst. reflexivity.
  - apply in_map_iff in H. destruct H as ([a r'] & E & Hin).
    simpl in E. inversion E; subst.
    rewrite perm_swap. constructor. apply IH; assumption.
Qed.

Lemma perms_of_permutation (n : nat) : forall s p,
  length s = n -> In p (Leibniz.perms_of n s) -> Permutation p s.
Proof.
  induction n as [|n IH]; intros s p Hlen H.
  - destruct s; [|discriminate]. simpl in H. destruct H as [<-|[]]. constructor.
  - cbn [Leibniz.perms_of] in H. apply in_flat_map in H.
    destruct H as ([y r] & Hpick & Hp). cbn [fst snd] in Hp.
    apply in_map_iff in Hp. destruct Hp as (p' & <- & Hp').
    pose proof (picks_permutation _ _ _ Hpick) as Hperm.
    rewrite <- Hperm. constructor. apply IH; [|assumption].
    apply Permutation_length in Hperm. simpl in Hperm. lia.
Qed.

Lemma picks_length (l : list Z) : length (Leibniz.picks l) = length l.
Proof. induction l; simpl; [reflexivity|]. rewrite length_map. congruence. Qed.

Lemma perms_of_length (n : nat) : forall s,
  length s = n -> length (Leibniz.perms_of n s) = fact n.
Proof.
  induction n as [|n IH]; intros s Hlen; [reflexivity|].
  cbn [Leibniz.perms_of].
  assert (H : forall P : list (Z * list Z),
             (forall xr, In xr P -> length (snd xr) = n) ->
             length (flat_map (fun xr => map (cons (fst xr)) (Leibniz.perms_of n (snd xr))) P)
             = (length P * fact n)%nat).
  { induction P as [|xr P IHP]; intros HP; [reflexivity|].
    simpl. rewrite length_app, length_map, IH, IHP; auto.
    - intros; apply HP; simpl; auto.
    - apply HP; simpl; auto. }
  rewrite H, picks_length, Hlen; [simpl; lia|].
  intros [y r] Hin. apply picks_permutation in Hin.
  apply Permutation_length in Hin. simpl in *. lia.
Qed.

(** ** The inversion count *)

Lemma inverse_number_count (before : list Z) : forall x c,
  inverse_number before x c = c + greater_in before x.
Proof.
  unfold greater_in.
  induction before as [|f before IH]; intros x c; simpl; [lia|].
  rewrite IH. destruct (x <? f); simpl length; lia.
Qed.

Lemma cross_snoc (rest : list Z) : forall before x,
  cross (before ++ [x]) rest =
  cross before rest + Z.of_nat (length (filter (fun y => y <? x) rest)).
Proof.
  induction rest as [|y rest IH]; intros before x; simpl; [lia|].
  rewrite IH. unfold greater_in. rewrite filter_app, length_app. simpl.
  destruct (y <? x); simpl length; lia.
Qed.

Lemma elements_inverse_number_loop_count (rest : list Z) : forall before c,
  elements_inverse_number_loop before rest c =
  c + cross before rest + Leibniz.inversions rest.
Proof.
  induction rest as [|x rest IH]; intros before c; simpl; [lia|].
  rewrite IH, inverse_number_count, cross_snoc. lia.
Qed.

Lemma elements_inverse_number_inversions (p : list Z) :
  elements_inverse_number p = Leibniz.inversions p.
Proof.
  destruct p as [|x rest]; [reflexivity|].
  unfold elements_inverse_number.
  rewrite elements_inverse_number_loop_count.
  change (Leibniz.inversions (x :: rest))
    with (Z.of_nat (length (filter (fun y => y <? x) rest)) + Leibniz.inversions rest).
  assert (H : cross [x] rest = Z.of_nat (length (filter (fun y => y <? x) rest))).
  { clear. induction rest as [|y rest IH]; simpl; [reflexivity|].
    rewrite IH. unfold greater_in. simpl. destruct (y <? x); simpl length; lia. }
  lia.
Qed.

(** ** Index arithmetic *)

Lemma wrap_small (x : Z) : 0 <= x < 2 ^ 64 -> wrap x = x.
Proof. intros H. unfold wrap. apply Z.mod_small. assumption. Qed.

Lemma vec_index_nth {A : Type} (v : list A) (i : Z) (d : A) :
  0 <= i < Z.of_nat (length v) -> vec_index v i = Val (nth (Z.to_nat i) v d).
Proof.
  intros H. unfold vec_index, in_bounds.
  destruct (Z.leb_spec 0 i); [|lia]. destruct (Z.ltb_spec i (Z.of_nat (length v))); [|lia].
  simpl. rewrite (nth_error_nth' v d) by lia. reflexivity.
Qed.

Lemma map_seq_range (k : nat) : forall a, map Z.of_nat (seq a k) = range (Z.of_nat a) k.
Proof.
  induction k as [|k IH]; intros a; simpl; [reflexivity|].
  rewrite IH. f_equal. f_equal. lia.
Qed.

Lemma iota_range (N : Z) : Std.iota N = range 1 (Z.to_nat N).
Proof. unfold Std.iota. apply (map_seq_range _ 1%nat). Qed.

Lemma range_bounds (k : nat) : forall i x, In x (range i k) -> i <= x < i + Z.of_nat k.
Proof.
  induction k as [|k IH]; intros i x H; simpl in H; [contradiction|].
  destruct H as [<-|H]; [lia|]. apply IH in H. lia.
Qed.

Lemma range_sorted (k : nat) : forall i, StronglySorted Z.lt (range i k).
Proof.
  induction k as [|k IH]; intros i; simpl; constructor; [apply IH|].
  rewrite Forall_forall. intros x H. apply range_bounds in H. lia.
Qed.

Lemma range_length (k : nat) : forall i, length (range i k) = k.
Proof. induction k; intros; simpl; auto. Qed.

Lemma vec_resize_length {A : Type} (fill : A) (n : Z) (v : list A) :
  0 <= n -> Z.of_nat (length (vec_resize fill n v)) = n.
Proof.
  intros Hn. unfold vec_resize.
  rewrite length_app, length_firstn, repeat_length. lia.
Qed.

(** What the constructor builds is well formed. *)
Lemma make_well_formed {T : Type} {E : Element T} (N : Z) (data : list T) (d : det T) :
  1 <= N -> N * N < 2 ^ 64 -> Det.make N data = Val d -> well_formed d.
Proof.
  intros H1 H64. unfold Det.make, Table.make.
  destruct (Z.eqb_spec N 0); [lia|]. cbn [bind].
  intros H. inversion H; subst; clear H. unfold well_formed. cbn.
  rewrite wrap_small by nia.
  repeat split; try lia. apply vec_resize_length. nia.
Qed.

Section Expansion.
Context {T : Type} {E : Element T}.
Variable d : det T.
Hypothesis WF : well_formed d.

Let N := Det.get_N d.

Lemma get_element_entry (i j : Z) :
  1 <= i <= N -> 1 <= j <= N ->
  Det.get_element d i j = Val (Some (Leibniz.entry d i j)).
Proof.
  intros Hi Hj. destruct WF as (H1 & HN & Hsz & Hlen).
  unfold N, Det.get_N, Table.get_M in *.
  unfold Det.get_element, Table.get_element, Table.get_M, Table.get_N.
  rewrite HN.
  destruct (Z.gtb_spec i (_M (_nt d))); [lia|].
  destruct (Z.gtb_spec j (_M (_nt d))); [lia|]. simpl orb. cbv iota.
  assert (Hidx : 0 <= (j - 1) * _M (_nt d) + (i - 1) < _M (_nt d) * _M (_nt d)) by nia.
  assert (H64 : _M (_nt d) < 2 ^ 64) by nia.
  rewrite (wrap_small (i - 1)), (wrap_small (j - 1)) by lia.
  rewrite wrap_small by lia.
  rewrite (vec_index_nth _ _ e_zero) by lia.
  reflexivity.
Qed.

Let sel (p : list Z) (i : Z) : T := Leibniz.entry d i (nth (Z.to_nat (i - 1)) p 0).

Lemma gc_product_range (p : list Z) (Hp : index_vector N p) (k : nat) :
  forall index tresult,
    1 <= index -> index + Z.of_nat k = N + 1 ->
    Det.gc_product k index d p tresult =
    Val (if existsb (fun e => e_eqb e e_zero) (map (sel p) (range index k)) then e_zero
         else fold_left e_mul (map (sel p) (range index k)) tresult).
Proof.
  destruct Hp as [Hlen Hin].
  assert (HN64 : N < 2 ^ 64).
  { destruct WF as (H1 & _ & Hsz & _). unfold N, Det.get_N, Table.get_M. nia. }
  induction k as [|k IH]; intros index tresult Hlo Hhi; [reflexivity|].
  cbn [Det.gc_product range map existsb fold_left].
  rewrite wrap_small by lia.
  rewrite (vec_index_nth _ _ 0) by lia. cbn [bind].
  rewrite get_element_entry; [| lia | apply Hin; apply nth_In; lia].
  cbn [bind Det.optional_eqb]. fold (sel p index).
  destruct (e_eqb (sel p index) e_zero); [reflexivity|].
  cbn [deref bind orb]. apply IH; lia.
Qed.

Lemma gc_product_term (p : list Z) :
  index_vector N p ->
  Det.gc_product (Z.to_nat N) 1 d p
    (if elements_inverse_number p mod 2 =? 0 then e_one else e_neg e_one)
  = Val (Leibniz.term d p).
Proof.
  intros Hp.
  assert (H1 : 1 <= N) by (destruct WF as (H1 & _); exact H1).
  rewrite (gc_product_range p Hp) by lia.
  unfold Leibniz.term, Leibniz.selected, Leibniz.sign. fold N.
  rewrite iota_range, elements_inverse_number_inversions.
  rewrite Zmod_even. destruct (Z.even (Leibniz.inversions p)); reflexivity.
Qed.

Lemma gc_loop_run (a b : list Z) (L : list (list Z)) :
  run a b L -> fst (Std.next_permutation b) = false ->
  (forall p, In p L -> index_vector N p) ->
  forall fuel result, (length L <= fuel)%nat ->
    Det.gc_loop fuel d a result = Val (fold_left e_add (map (Leibniz.term d) L) result).
Proof.
  intros Hrun Hend.
  induction Hrun as [a|a a' b L Ha _ IH]; intros Hvalid fuel result Hfuel.
  - destruct fuel as [|fuel]; [simpl in Hfuel; lia|].
    cbn [Det.gc_loop]. fold N. rewrite gc_product_term by (apply Hvalid; simpl; auto).
    cbn [bind]. destruct (Std.next_permutation a) as [more a']. simpl in Hend. subst more.
    reflexivity.
  - destruct fuel as [|fuel]; [simpl in Hfuel; lia|].
    cbn [Det.gc_loop]. fold N. rewrite gc_product_term by (apply Hvalid; simpl; auto).
    cbn [bind]. rewrite Ha. cbn [map fold_left].
    apply IH; [assumption | | simpl in Hfuel; lia].
    intros p Hp. apply Hvalid. simpl; auto.
Qed.

End Expansion.

(** ** The list [lex_permutations]: complete and in lexicographic order *)

Lemma picks_in (l : list Z) (x : Z) :
  In x l -> exists r, In (x, r) (Leibniz.picks l).
Proof.
  induction l as [|y q IH]; simpl; intros H; [contradiction|].
  destruct H as [<-|H].
  - exists q. auto.
  - destruct (IH H) as [r Hr]. exists (y :: r). right.
    apply in_map_iff. exists (x, r). auto.
Qed.

Lemma perms_of_complete (n : nat) : forall s p,
  length s = n -> Permutation p s -> In p (Leibniz.perms_of n s).
Proof.
  induction n as [|n IH]; intros s p Hlen Hp.
  - destruct s; [|discriminate]. apply Permutation_sym, Permutation_nil in Hp. subst. simpl; auto.
  - destruct p as [|x p'].
    { apply Permutation_length in Hp. simpl in Hp. lia. }
    assert (Hx : In x s) by (apply (Permutation_in x Hp); simpl; auto).
    destruct (picks_in s x Hx) as [r Hr].
    pose proof (picks_permutation _ _ _ Hr) as Hperm.
    cbn [Leibniz.perms_of]. apply in_flat_map. exists (x, r). split; [assumption|].
    cbn [fst snd]. apply in_map. apply IH.
    + apply Permutation_length in Hperm. simpl in Hperm. lia.
    + apply Permutation_cons_inv with (a := x). rewrite Hperm. assumption.
Qed.

Lemma picks_fst (l : list Z) : map fst (Leibniz.picks l) = l.
Proof.
  induction l as [|x q IH]; simpl; [reflexivity|].
  f_equal. rewrite map_map.
  etransitivity; [apply map_ext; intros [a r]; reflexivity | exact IH].
Qed.

Lemma picks_sorted (l : list Z) : forall y r,
  StronglySorted Z.lt l -> In (y, r) (Leibniz.picks l) -> StronglySorted Z.lt r.
Proof.
  induction l as [|x q IH]; simpl; intros y r Hs H; [contradiction|].
  inversion Hs as [|? ? Hq Hall]; subst.
  destruct H as [H|H].
  - inversion H; subst. assumption.
  - apply in_map_iff in H. destruct H as ([a r'] & Heq & Hin).
    simpl in Heq. inversion Heq; subst.
    constructor; [apply (IH y r'); assumption|].
    rewrite Forall_forall in *. intros z Hz. apply Hall.
    apply (Permutation_in z (picks_permutation _ _ _ Hin)). simpl; auto.
Qed.

Lemma lex_sorted_app (a b : list (list Z)) :
  StronglySorted Leibniz.lex_lt a -> StronglySorted Leibniz.lex_lt b ->
  (forall p q, In p a -> In q b -> Leibniz.lex_lt p q) ->
  StronglySorted Leibniz.lex_lt (a ++ b).
Proof.
  induction a as [|h a IH]; simpl; intros Ha Hb Hab; [assumption|].
  inversion Ha as [|? ? Hs Hall]; subst.
  constructor.
  - apply IH; auto.
  - rewrite Forall_app. split; [assumption|].
    rewrite Forall_forall. intros q Hq. apply Hab; auto.
Qed.

Lemma lex_sorted_map_cons (x : Z) (L : list (list Z)) :
  StronglySorted Leibniz.lex_lt L ->
  StronglySorted Leibniz.lex_lt (map (cons x) L).
Proof.
  induction 1 as [|p L _ IH Hall]; simpl; constructor; [assumption|].
  rewrite Forall_forall in *. intros q Hq.
  apply in_map_iff in Hq. destruct Hq as (q' & <- & Hq').
  simpl. right. split; [reflexivity | auto].
Qed.

Lemma perms_of_lex_sorted (n : nat) : forall s,
  StronglySorted Z.lt s -> StronglySorted Leibniz.lex_lt (Leibniz.perms_of n s).
Proof.
  induction n as [|n IH]; intros s Hs.
  - simpl. repeat constructor.
  - cbn [Leibniz.perms_of].
    assert (H : forall P : list (Z * list Z),
               StronglySorted Z.lt (map fst P) ->
               (forall xr, In xr P -> StronglySorted Z.lt (snd xr)) ->
               StronglySorted Leibniz.lex_lt
                 (flat_map (fun xr => map (cons (fst xr)) (Leibniz.perms_of n (snd xr))) P)).
    { induction P as [|[x r] P IHP]; intros Hfst Hrest; simpl; [constructor|].
      simpl in Hfst. inversion Hfst as [|? ? HP Hall]; subst.
      apply lex_sorted_app.
      - apply lex_sorted_map_cons. apply IH. apply (Hrest (x, r)). simpl; auto.
      - apply IHP; [assumption|]. intros; apply Hrest; simpl; auto.
      - intros p q Hp Hq.
        apply in_map_iff in Hp. destruct Hp as (p' & <- & _).
        apply in_flat_map in Hq. destruct Hq as ([y r'] & HyP & Hq).
        apply in_map_iff in Hq. destruct Hq as (q' & <- & _).
        simpl. left. rewrite Forall_forall in Hall. apply Hall.
        apply (in_map fst) in HyP. exact HyP. }
    apply H.
    + rewrite picks_fst. assumption.
    + intros [y r] Hin. apply (picks_sorted s y r); assumption.
Qed.

Lemma iota_sorted (N : Z) : StronglySorted Z.lt (Std.iota N).
Proof. rewrite iota_range. apply range_sorted. Qed.

Lemma iota_length (N : Z) : length (Std.iota N) = Z.to_nat N.
Proof. rewrite iota_range. apply range_length. Qed.

(** The permutations that the expansion sums over are exactly the
    permutations of 1..N, each once, in lexicographic order. *)
Lemma lex_permutations_spec (N : Z) :
  (forall p, In p (Leibniz.lex_permutations N) <-> Permutation p (Std.iota N)) /\
  StronglySorted Leibniz.lex_lt (Leibniz.lex_permutations N) /\
  length (Leibniz.lex_permutations N) = fact (Z.to_nat N).
Proof.
  unfold Leibniz.lex_permutations. repeat split.
  - apply perms_of_permutation. apply iota_length.
  - apply perms_of_complete. apply iota_length.
  - apply perms_of_lex_sorted. apply iota_sorted.
  - apply perms_of_length. apply iota_length.
Qed.

(** C1.  For a determinant of order N as its constructor builds it,
    [general_calculate] returns the single element when N = 1, and otherwise
    the sum, over the permutations of 1..N in lexicographic order, of the
    signed product of the elements (i, permutation[i]): the sign is +1 when
    the number of inversions is even and -1 when it is odd, and a term is 0
    when a selected element equals 0.  The permutations summed over are
    exactly the permutations of 1..N, in strictly increasing lexicographic
    order.  The loop over them ends: N! rounds are enough. *)
Theorem general_calculate_expansion {T : Type} {E : Element T} (d : det T) (fuel : nat) :
  well_formed d ->
  (fact (Z.to_nat (Det.get_N d)) <= fuel)%nat ->
  Det.general_calculate fuel d = Val (Leibniz.expansion d) /\
  (forall p, In p (Leibniz.lex_permutations (Det.get_N d)) <->
             Permutation p (Std.iota (Det.get_N d))) /\
  StronglySorted Leibniz.lex_lt (Leibniz.lex_permutations (Det.get_N d)).
Proof.
  intros WF Hfuel.
  split; [| split; apply lex_permutations_spec].
  assert (H1 : 1 <= Det.get_N d) by (destruct WF as (H1 & _); exact H1).
  unfold Det.general_calculate, Leibniz.expansion.
  destruct (Det.get_N d =? 1) eqn:EN.
  - rewrite (get_element_entry d WF) by lia. reflexivity.
  - pose proof (run_perms_of (Z.to_nat (Det.get_N d)) (Std.iota (Det.get_N d))
                  (iota_length _) (iota_sorted _)) as Hrun.
    rewrite (gc_loop_run d WF _ _ _ Hrun); [reflexivity | | |].
    + rewrite next_permutation_last by apply iota_sorted. reflexivity.
    + intros p Hp. apply perms_of_permutation in Hp; [|apply iota_length].
      split.
      * rewrite (Permutation_length Hp), iota_length. lia.
      * intros j Hj. apply (Permutation_in j Hp) in Hj.
        rewrite iota_range in Hj. apply range_bounds in Hj. lia.
    + rewrite perms_of_length by apply iota_length. assumption.
Qed.

Lemma general_calculate_expansion_witness :
  well_formed Examples.det_3_2_m2_1 /\
  (fact (Z.to_nat (Det.get_N Examples.det_3_2_m2_1)) <= 2)%nat /\
  Det.general_calculate 2 Examples.det_3_2_m2_1
  = Val (Leibniz.expansion Examples.det_3_2_m2_1).
Proof.
  assert (WF : well_formed Examples.det_3_2_m2_1)
    by (unfold well_formed, Examples.det_3_2_m2_1; cbn; lia).
  split; [exact WF|].
  assert (Hfuel : (fact (Z.to_nat (Det.get_N Examples.det_3_2_m2_1)) <= 2)%nat)
    by (vm_compute; lia).
  split; [exact Hfuel|].
  exact (proj1 (general_calculate_expansion Examples.det_3_2_m2_1 2 WF Hfuel)).
Defined.

(** The determinant 3 * 1 - (-2) * 2 of the first test program. *)
Lemma expansion_det_3_2_m2_1 :
  Leibniz.expansion Examples.det_3_2_m2_1 = dz 7.
Proof. vm_compute. reflexivity. Qed.

(** ** The table's element access *)

Section TableFacts.
Context {T : Type} {E : Element T}.

Lemma get_element_beyond (t : numerical_table T) (row column : Z) :
  row > Table.get_M t \/ column > Table.get_N t ->
  Table.get_element t row column = Val None.
Proof.
  intros H. unfold Table.get_element.
  destruct (Z.gtb_spec row (Table.get_M t)); [reflexivity|].
  destruct (Z.gtb_spec column (Table.get_N t)); [reflexivity|]. lia.
Qed.

Lemma set_element_beyond (t : numerical_table T) (i j : Z) (v : T) :
  i > Table.get_M t \/ j > Table.get_N t ->
  Table.set_element t i j v = Val t.
Proof.
  intros H. unfold Table.set_element.
  destruct (Z.gtb_spec i (Table.get_M t)); [reflexivity|].
  destruct (Z.gtb_spec j (Table.get_N t)); [reflexivity|]. lia.
Qed.

Lemma set_column_beyond_rows (t : numerical_table T) (column : Z) (values : list T) :
  column > Table.get_M t -> Table.set_column t column values = Val t.
Proof.
  intros H. unfold Table.set_column.
  destruct (Z.gtb_spec column (Table.get_M t)); [reflexivity | lia].
Qed.

Lemma x_n_below_size (l : LinearEquations.linear_equations T) (n : Z) (d : T) :
  1 <= n < vec_size (LinearEquations._x l) -> n < 2 ^ 64 ->
  LinearEquations.x_n l n
  = Val (Some (nth (Z.to_nat (n - 1)) (LinearEquations._x l) d)).
Proof.
  intros H H64. unfold LinearEquations.x_n, vec_size in *.
  destruct (Z.geb_spec n (Z.of_nat (length (LinearEquations._x l)))); [lia|].
  rewrite wrap_small by lia.
  rewrite (vec_index_nth _ _ d) by lia. reflexivity.
Qed.

Lemma x_n_from_size (l : LinearEquations.linear_equations T) (n : Z) :
  vec_size (LinearEquations._x l) <= n -> LinearEquations.x_n l n = Val None.
Proof.
  intros H. unfold LinearEquations.x_n.
  destruct (Z.geb_spec n (vec_size (LinearEquations._x l))); [reflexivity | lia].
Qed.

(** C10.  The table constructor raises [invalid_argument] for every
    request with 0 columns, and the default constructor of
    [linear_equations], which asks for 1 row and 0 columns inside a
    [noexcept] function, therefore always ends in [std::terminate]. *)
Theorem default_linear_equations_terminates :
  (forall (M : Z) (data : list T), Table.make M 0 data = Throw invalid_argument) /\
  LinearEquations.make_default (T := T) = Terminate.
Proof.
  split.
  - intros M data. unfold Table.make. destruct (M =? 0); reflexivity.
  - reflexivity.
Qed.

End TableFacts.

(** ** The code on concrete inputs *)

Import Examples.

(** C2.  On the determinant with rows (0 1) and (1 0), which the
    constructor builds from [{0, 1, 1, 0}], [general_calculate] returns -1
    and [elimination_calculate] returns 1: the rows are exchanged and the
    product of the diagonal keeps its sign. *)
Theorem elimination_calculate_after_exchange :
  Det.make 2 (map dz [0; 1; 1; 0]) = Val det_exchange /\
  Det.general_calculate 2 det_exchange = Val (dz (-1)) /\
  Det.elimination det_exchange
  = Val {| _nt := {| _M := 2; _N := 2; _data := map dz [1; 0; 0; 1] |} |} /\
  Det.elimination_calculate det_exchange = Val (dz 1).
Proof. repeat split; vm_compute; reflexivity. Qed.

(** On the order-4 determinant of the test program no pivot is 0 and the
    two evaluations agree. *)
Lemma evaluations_of_det_order_4 :
  Det.general_calculate 24 det_order_4 = Val (dz 48) /\
  Det.elimination_calculate det_order_4 = Val (dz 48).
Proof. split; vm_compute; reflexivity. Qed.

(** C3.  On the matrix with rows (1 2) and (3 4), [adjoint] returns the
    matrix with rows (4 3) and (2 1): cell (1, 2) holds the minor 3, whereas
    [algebraic_complement_minor(1, 2)] of the determinant evaluates to -3. *)
Theorem adjoint_stores_minors :
  Matrix.make 2 2 (map dz [1; 3; 2; 4]) = Val matrix_1234 /\
  Matrix.adjoint 2 matrix_1234
  = Val (Some {| _M := 2; _N := 2; _data := map dz [4; 2; 3; 1] |}) /\
  (a <- (o <- Matrix.adjoint 2 matrix_1234 ;; value o) ;;
   Table.get_element a 1 2) = Val (Some (dz 3)) /\
  (d <- (o <- Matrix.det matrix_1234 ;; value o) ;;
   m <- (o <- Det.m_i_j d 1 2 ;; value o) ;;
   Det.general_calculate 2 m) = Val (dz 3) /\
  (d <- (o <- Matrix.det matrix_1234 ;; value o) ;;
   c <- (o <- Det.algebraic_complement_minor d 1 2 ;; value o) ;;
   Det.general_calculate 2 c) = Val (dz (-3)).
Proof. repeat split; vm_compute; reflexivity. Qed.

(** C4.  The matrix with rows (1 2) and (2 4) has determinant 0, and
    [inverse] returns a present matrix, every element of which is
    infinite; on the 1-by-1 matrix (2), whose determinant is 2, [inverse]
    throws [bad_optional_access]. *)
Theorem inverse_of_singular_matrix :
  (d <- (o <- Matrix.det matrix_singular ;; value o) ;;
   Det.general_calculate 2 d) = Val (dz 0) /\
  Matrix.inverse 2 matrix_singular
  = Val (Some {| _M := 2; _N := 2;
                 _data := [Inf false; Inf false; Inf false; Inf false] |}) /\
  (d <- (o <- Matrix.det matrix_2 ;; value o) ;;
   Det.general_calculate 2 d) = Val (dz 2) /\
  Matrix.inverse 2 matrix_2 = Throw bad_optional_access.
Proof. repeat split; vm_compute; reflexivity. Qed.

(** C5.  With rows (0 0) and (1 1) the pivot is 0 and the entry below it
    is 1, yet [elimination] exchanges nothing and returns the determinant
    as it was.  With rows (0 1) and (0 2) the pivot is 0 and so is the
    entry below it, yet [elimination] exchanges the two rows.  The entry
    tested is (1, 2), in the pivot's row. *)
Theorem elimination_tests_the_pivot_row :
  Det.get_element det_zero_row 1 1 = Val (Some (dz 0)) /\
  Det.get_element det_zero_row 2 1 = Val (Some (dz 1)) /\
  Det.get_element det_zero_row 1 2 = Val (Some (dz 0)) /\
  Det.elimination det_zero_row = Val det_zero_row /\
  Det.get_element det_zero_column 1 1 = Val (Some (dz 0)) /\
  Det.get_element det_zero_column 2 1 = Val (Some (dz 0)) /\
  Det.get_element det_zero_column 1 2 = Val (Some (dz 1)) /\
  Det.elimination det_zero_column
  = Val {| _nt := {| _M := 2; _N := 2; _data := map dz [0; 0; 2; 1] |} |}.
Proof. repeat split; vm_compute; reflexivity. Qed.

(** C6.  For x + 2y = 1, 2x + 4y = 1, whose coefficient matrix has
    determinant 0, [calculate_inverse] stores two infinite unknowns and
    [x_n(1)] is then present; [calculate] leaves the solution vector empty
    on the same system.  For two equations in three unknowns
    [calculate_inverse] ends in [std::terminate]. *)
Theorem calculate_inverse_on_singular_system :
  LinearEquations.make 2 3 (map dz [1; 2; 2; 4; 1; 1]) = Val system_singular /\
  LinearEquations.calculate_inverse 2 system_singular
  = Val {| LinearEquations._data := LinearEquations._data system_singular;
           LinearEquations._x := [Inf false; Inf false] |} /\
  (l <- LinearEquations.calculate_inverse 2 system_singular ;;
   LinearEquations.x_n l 1) = Val (Some (Inf false)) /\
  LinearEquations.calculate 2 system_singular = Val system_singular /\
  LinearEquations.calculate_inverse 6 system_2x4 = Terminate.
Proof. repeat split; vm_compute; reflexivity. Qed.

(** C7.  [calculate] on the system of the test program computes the three
    unknowns 5, 0 and 3.  After it [x_n(1)] and [x_n(2)] return the first
    two, [x_n(3)] is absent, and [x_n(0)] reads the vector at index
    2^64 - 1. *)
Theorem x_n_of_the_last_unknown :
  LinearEquations.make 3 4 (map dz [1; 2; 3; -1; -1; 2; -1; -3; -5; 2; 1; 0])
  = Val system_3x4 /\
  (l <- LinearEquations.calculate 6 system_3x4 ;; Val (LinearEquations._x l))
  = Val (map dz [5; 0; 3]) /\
  (l <- LinearEquations.calculate 6 system_3x4 ;; LinearEquations.x_n l 1)
  = Val (Some (dz 5)) /\
  (l <- LinearEquations.calculate 6 system_3x4 ;; LinearEquations.x_n l 2)
  = Val (Some (dz 0)) /\
  (l <- LinearEquations.calculate 6 system_3x4 ;; LinearEquations.x_n l 3)
  = Val None /\
  (l <- LinearEquations.calculate 6 system_3x4 ;; LinearEquations.x_n l 0)
  = Undefined.
Proof. repeat split; vm_compute; reflexivity. Qed.

(** C8.  On the 2-by-2 table with columns (1 2) and (3 4), [get_element(0, 2)]
    returns the element 2 of cell (2, 1) and [set_element(0, 2, 9)]
    overwrites that cell; with a 0 column, or with row 0 of column 1, the
    index computed lies outside the vector. *)
Theorem element_access_at_index_zero :
  Table.make 2 2 (map dz [1; 2; 3; 4]) = Val table_2x2 /\
  Table.get_element table_2x2 0 2 = Val (Some (dz 2)) /\
  Table.set_element table_2x2 0 2 (dz 9)
  = Val {| _M := 2; _N := 2; _data := map dz [1; 9; 3; 4] |} /\
  Table.get_element table_2x2 0 1 = Undefined /\
  Table.get_element table_2x2 1 0 = Undefined /\
  Table.set_element table_2x2 0 1 (dz 9) = Undefined /\
  Table.set_element table_2x2 1 0 (dz 9) = Undefined.
Proof. repeat split; vm_compute; reflexivity. Qed.

(** C9.  On the 1-by-2 table (1 2), [set_column(2, {9})] changes nothing,
    although column 2 exists and the sequence has one element, the number
    of rows; [get_column(2)] on the same table returns the column, and
    [set_row(2, {9})] on the 2-by-1 table stores the row. *)
Theorem set_column_compares_with_rows :
  Table.make 1 2 (map dz [1; 2]) = Val table_1x2 /\
  Table.set_column table_1x2 2 [dz 9] = Val table_1x2 /\
  Table.set_column table_1x2 1 [dz 9]
  = Val {| _M := 1; _N := 2; _data := map dz [9; 2] |} /\
  Table.get_column table_1x2 2 = Val (Some [dz 2]) /\
  Table.set_row table_2x1 2 [dz 9]
  = Val {| _M := 2; _N := 1; _data := map dz [1; 9] |}.
Proof. repeat split; vm_compute; reflexivity. Qed.

(** The two solvers on the system of the test program: Cramer's rule
    finds 5, 0, 3, which solves the three equations; the inverse-matrix
    path stores 7, 4, 1. *)
Lemma solvers_on_the_test_system :
  (l <- LinearEquations.calculate 6 system_3x4 ;; Val (LinearEquations._x l))
  = Val (map dz [5; 0; 3]) /\
  (l <- LinearEquations.calculate_inverse 6 system_3x4 ;; Val (LinearEquations._x l))
  = Val (map dz [7; 4; 1]).
Proof. split; vm_compute; reflexivity. Qed.

(** * More of the code *)

(** ** Lists and loops *)

Lemma list_update_length {A : Type} (v : list A) : forall n x,
  length (list_update v n x) = length v.
Proof.
  induction v as [|a v IH]; intros [|n] x; simpl; auto.
Qed.

Lemma nth_list_update {A : Type} (v : list A) : forall n m x d,
  (n < length v)%nat ->
  nth m (list_update v n x) d = if Nat.eqb m n then x else nth m v d.
Proof.
  induction v as [|a v IH]; intros n m x d Hn; simpl in Hn; [lia|].
  destruct n as [|n]; destruct m as [|m]; simpl; try reflexivity.
  apply IH. lia.
Qed.

Lemma nth_map_range {A : Type} (f : Z -> A) (d : A) (n : nat) : forall lo k,
  (k < n)%nat -> nth k (map f (range lo n)) d = f (lo + Z.of_nat k).
Proof.
  induction n as [|n IH]; intros lo k Hk; [lia|].
  destruct k as [|k]; simpl.
  - f_equal. lia.
  - rewrite IH by lia. f_equal. lia.
Qed.

Lemma list_eq_nth {A : Type} (d : A) (l l' : list A) :
  length l = length l' ->
  (forall k, (k < length l)%nat -> nth k l d = nth k l' d) ->
  l = l'.
Proof. intros Hlen H. apply (nth_ext l l' d d); assumption. Qed.

Lemma for_count_invariant {St : Type} (P : Z -> St -> Prop)
      (body : Z -> St -> outcome St) (n : nat) : forall lo s,
  P lo s ->
  (forall i s, lo <= i < lo + Z.of_nat n -> P i s ->
               exists s', body i s = Val s' /\ P (i + 1) s') ->
  exists s', for_count n lo body s = Val s' /\ P (lo + Z.of_nat n) s'.
Proof.
  induction n as [|n IH]; intros lo s H0 Hstep.
  - exists s. split; [reflexivity|]. replace (lo + Z.of_nat 0) with lo by lia. assumption.
  - destruct (Hstep lo s ltac:(lia) H0) as (s1 & Hb & H1).
    destruct (IH (lo + 1) s1 H1) as (s' & Hrun & Hend).
    + intros i s2 Hi. apply Hstep. lia.
    + exists s'. split.
      * cbn [for_count]. rewrite Hb. exact Hrun.
      * replace (lo + Z.of_nat (S n)) with (lo + 1 + Z.of_nat n) by lia. assumption.
Qed.

Lemma for_loop_invariant {St : Type} (P : Z -> St -> Prop)
      (body : Z -> St -> outcome St) (lo hi : Z) (s : St) :
  lo <= hi + 1 ->
  P lo s ->
  (forall i s, lo <= i <= hi -> P i s -> exists s', body i s = Val s' /\ P (i + 1) s') ->
  exists s', for_loop lo hi body s = Val s' /\ P (hi + 1) s'.
Proof.
  intros Hle H0 Hstep. unfold for_loop.
  destruct (for_count_invariant P body (Z.to_nat (hi + 1 - lo)) lo s H0) as (s' & Hr & He).
  - intros i s1 Hi. apply Hstep. lia.
  - exists s'. split; [assumption|].
    replace (hi + 1) with (lo + Z.of_nat (Z.to_nat (hi + 1 - lo))) by lia. assumption.
Qed.

(** ** Element access on a well-formed table *)

Section TableCells.
Context {T : Type} {E : Element T}.
Implicit Types t : numerical_table T.

Lemma index_bounds t (i j : Z) :
  table_wf t -> 1 <= i <= _M t -> 1 <= j <= _N t ->
  0 <= (j - 1) * _M t + (i - 1) < _M t * _N t.
Proof. intros (H1 & H2 & H3 & H4) Hi Hj. nia. Qed.

Lemma dims_small t : table_wf t -> _M t < 2 ^ 64 /\ _N t < 2 ^ 64.
Proof. intros (H1 & H2 & H3 & H4). split; nia. Qed.

Lemma index_inj (M a b i j : Z) :
  1 <= a <= M -> 1 <= i <= M ->
  (b - 1) * M + (a - 1) = (j - 1) * M + (i - 1) -> a = i /\ b = j.
Proof.
  intros Ha Hi H.
  assert (b = j) by (destruct (Z.lt_trichotomy b j) as [|[|]]; nia).
  subst. split; lia.
Qed.

Lemma get_element_cell t (i j : Z) :
  table_wf t -> 1 <= i <= _M t -> 1 <= j <= _N t ->
  Table.get_element t i j = Val (Some (cell t i j)).
Proof.
  intros WF Hi Hj.
  pose proof (index_bounds t i j WF Hi Hj) as Hidx.
  pose proof (dims_small t WF) as [HM HN].
  destruct WF as (H1 & H2 & H3 & H4).
  unfold Table.get_element, Table.get_M, Table.get_N.
  destruct (Z.gtb_spec i (_M t)); [lia|].
  destruct (Z.gtb_spec j (_N t)); [lia|]. cbn [orb].
  rewrite (wrap_small (i - 1)), (wrap_small (j - 1)) by lia.
  rewrite wrap_small by lia.
  rewrite (vec_index_nth _ _ e_zero) by lia.
  reflexivity.
Qed.

Lemma set_element_stored t (i j : Z) (v : T) :
  table_wf t -> 1 <= i <= _M t -> 1 <= j <= _N t ->
  Table.set_element t i j v = Val (stored t i j v).
Proof.
  intros WF Hi Hj.
  pose proof (index_bounds t i j WF Hi Hj) as Hidx.
  pose proof (dims_small t WF) as [HM HN].
  destruct WF as (H1 & H2 & H3 & H4).
  unfold Table.set_element, Table.get_M, Table.get_N.
  destruct (Z.gtb_spec i (_M t)); [lia|].
  destruct (Z.gtb_spec j (_N t)); [lia|]. cbn [orb].
  rewrite (wrap_small (i - 1)), (wrap_small (j - 1)) by lia.
  rewrite wrap_small by lia.
  unfold vec_store, in_bounds.
  destruct (Z.leb_spec 0 ((j - 1) * _M t + (i - 1))); [|lia].
  destruct (Z.ltb_spec ((j - 1) * _M t + (i - 1)) (Z.of_nat (length (_data t)))); [|lia].
  reflexivity.
Qed.

Lemma stored_wf t (i j : Z) (v : T) : table_wf t -> table_wf (stored t i j v).
Proof.
  intros (H1 & H2 & H3 & H4). unfold table_wf, stored. cbn.
  rewrite list_update_length. auto.
Qed.

Lemma stored_cell t (i j a b : Z) (v : T) :
  table_wf t -> 1 <= i <= _M t -> 1 <= j <= _N t ->
  1 <= a <= _M t -> 1 <= b <= _N t ->
  cell (stored t i j v) a b = if (a =? i) && (b =? j) then v else cell t a b.
Proof.
  intros WF Hi Hj Ha Hb.
  pose proof (index_bounds t i j WF Hi Hj) as Hidx.
  pose proof (index_bounds t a b WF Ha Hb) as Hidx'.
  destruct WF as (H1 & H2 & H3 & H4).
  unfold cell, stored. cbn [_M _N _data].
  rewrite nth_list_update by lia.
  destruct (Nat.eqb_spec (Z.to_nat ((b - 1) * _M t + (a - 1)))
                         (Z.to_nat ((j - 1) * _M t + (i - 1)))) as [He|Hne].
  - apply Z2Nat.inj in He; [|lia|lia].
    destruct (index_inj _ _ _ _ _ Ha Hi He) as [-> ->].
    rewrite !Z.eqb_refl. reflexivity.
  - destruct (Z.eqb_spec a i); destruct (Z.eqb_spec b j); subst; cbn [andb];
      try reflexivity. contradiction.
Qed.

(** Two well-formed tables of one shape with the same elements are equal. *)
Lemma table_ext t t' :
  table_wf t -> table_wf t' -> same_shape t t' ->
  (forall i j, 1 <= i <= _M t -> 1 <= j <= _N t -> cell t' i j = cell t i j) ->
  t' = t.
Proof.
  intros WF WF' [HM HN] Hcells.
  destruct WF as (H1 & H2 & H3 & H4). destruct WF' as (H1' & H2' & H3' & H4').
  destruct t as [M N data], t' as [M' N' data']. cbn in *. subst M' N'.
  f_equal. apply (list_eq_nth e_zero); [lia|].
  intros k Hk.
  specialize (Hcells (Z.of_nat k mod M + 1) (Z.of_nat k / M + 1)).
  unfold cell in Hcells. cbn in Hcells.
  assert (Hmod : 0 <= Z.of_nat k mod M < M) by (apply Z.mod_pos_bound; lia).
  assert (Hdiv : 0 <= Z.of_nat k / M < N).
  { split; [apply Z.div_pos; lia|]. apply Z.div_lt_upper_bound; lia. }
  replace (Z.to_nat ((Z.of_nat k / M + 1 - 1) * M + (Z.of_nat k mod M + 1 - 1)))
    with k in Hcells.
  - apply Hcells; lia.
  - pose proof (Z.div_mod (Z.of_nat k) M ltac:(lia)). nia.
Qed.

End TableCells.

(** ** Rows and columns *)

Section TableRows.
Context {T : Type} {E : Element T}.
Implicit Types t : numerical_table T.

Lemma vec_store_update {A : Type} (v : list A) (i : Z) (x : A) :
  0 <= i < Z.of_nat (length v) ->
  vec_store v i x = Val (list_update v (Z.to_nat i) x).
Proof.
  intros H. unfold vec_store, in_bounds.
  destruct (Z.leb_spec 0 i); [|lia].
  destruct (Z.ltb_spec i (Z.of_nat (length v))); [|lia]. reflexivity.
Qed.

Lemma row_of_length t r : length (row_of t r) = Z.to_nat (_N t).
Proof. unfold row_of. rewrite length_map. apply range_length. Qed.

Lemma column_of_length t c : length (column_of t c) = Z.to_nat (_M t).
Proof. unfold column_of. rewrite length_map. apply range_length. Qed.

Lemma row_of_nth t r (j : Z) :
  1 <= j <= _N t -> nth (Z.to_nat (j - 1)) (row_of t r) e_zero = cell t r j.
Proof.
  intros Hj. unfold row_of. rewrite nth_map_range by lia. f_equal. lia.
Qed.

Lemma column_of_nth t c (i : Z) :
  1 <= i <= _M t -> nth (Z.to_nat (i - 1)) (column_of t c) e_zero = cell t i c.
Proof.
  intros Hi. unfold column_of. rewrite nth_map_range by lia. f_equal. lia.
Qed.

(** The loop that fills [line] from position 1 to [n] with [f 1 .. f n]. *)
Lemma fill_line (n : Z) (f : Z -> T) (body : Z -> list T -> outcome (list T)) :
  0 <= n < 2 ^ 64 ->
  (forall i line, 1 <= i <= n -> body i line = vec_store line (wrap (i - 1)) (f i)) ->
  for_loop 1 n body (repeat e_zero (Z.to_nat n))
  = Val (map f (range 1 (Z.to_nat n))).
Proof.
  intros Hn Hget.
  destruct (for_loop_invariant
              (fun i line => length line = Z.to_nat n /\
                             forall j, 1 <= j < i ->
                                       nth (Z.to_nat (j - 1)) line e_zero = f j)
              body 1 n (repeat e_zero (Z.to_nat n)))
    as (line & Hrun & Hlen & Hnth).
  - lia.
  - split; [apply repeat_length | intros; lia].
  - intros i line Hi [Hlen Hnth].
    rewrite Hget by lia.
    rewrite wrap_small by lia.
    rewrite vec_store_update by lia.
    eexists. split; [reflexivity|]. split.
    + rewrite list_update_length. assumption.
    + intros j Hj. rewrite nth_list_update by lia.
      destruct (Nat.eqb_spec (Z.to_nat (j - 1)) (Z.to_nat (i - 1))) as [He|Hne].
      * f_equal. lia.
      * apply Hnth. lia.
  - rewrite Hrun. f_equal.
    apply (list_eq_nth e_zero).
    + rewrite length_map, range_length. assumption.
    + intros k Hk. rewrite nth_map_range by lia.
      rewrite <- (Hnth (1 + Z.of_nat k)) by lia. f_equal. lia.
Qed.

Lemma get_row_row_of t (r : Z) :
  table_wf t -> 1 <= r <= _M t ->
  Table.get_row t r = Val (Some (row_of t r)).
Proof.
  intros WF Hr. pose proof (dims_small t WF) as [HM HN].
  unfold Table.get_row, Table.get_M, Table.get_N.
  destruct (Z.gtb_spec r (_M t)); [lia|].
  rewrite (fill_line (_N t) (fun j => cell t r j)).
  - reflexivity.
  - destruct WF as (H1 & H2 & _). lia.
  - intros i line Hi. rewrite get_element_cell by assumption. reflexivity.
Qed.

Lemma get_column_column_of t (c : Z) :
  table_wf t -> 1 <= c <= _N t ->
  Table.get_column t c = Val (Some (column_of t c)).
Proof.
  intros WF Hc. pose proof (dims_small t WF) as [HM HN].
  unfold Table.get_column, Table.get_M, Table.get_N.
  destruct (Z.gtb_spec c (_N t)); [lia|].
  rewrite (fill_line (_M t) (fun i => cell t i c)).
  - reflexivity.
  - destruct WF as (H1 & H2 & _). lia.
  - intros i line Hi. rewrite get_element_cell by assumption. reflexivity.
Qed.

(** The loops of [set_row] and [set_column]: [n] stores at the places
    [place 1 .. place n]. *)
Lemma store_line t (n : Z) (values : list T) (row col : Z -> Z) :
  table_wf t -> 0 <= n < 2 ^ 64 -> vec_size values = n ->
  (forall i, 1 <= i <= n -> 1 <= row i <= _M t /\ 1 <= col i <= _N t) ->
  (forall i i', 1 <= i <= n -> 1 <= i' <= n -> row i = row i' -> col i = col i' -> i = i') ->
  exists t',
    for_loop 1 n
      (fun i t' => x <- vec_index values (wrap (i - 1)) ;;
                   Table.set_element t' (row i) (col i) x) t = Val t' /\
    table_wf t' /\ same_shape t t' /\
    (forall i, 1 <= i <= n ->
               cell t' (row i) (col i) = nth (Z.to_nat (i - 1)) values e_zero) /\
    (forall a b, 1 <= a <= _M t -> 1 <= b <= _N t ->
                 (forall i, 1 <= i <= n -> ~ (a = row i /\ b = col i)) ->
                 cell t' a b = cell t a b).
Proof.
  intros WF Hn Hsize Hplace Hinj. unfold vec_size in Hsize.
  destruct (for_loop_invariant
              (fun k t' =>
                 table_wf t' /\ same_shape t t' /\
                 (forall i, 1 <= i < k ->
                            cell t' (row i) (col i) = nth (Z.to_nat (i - 1)) values e_zero) /\
                 (forall a b, 1 <= a <= _M t -> 1 <= b <= _N t ->
                              (forall i, 1 <= i < k -> ~ (a = row i /\ b = col i)) ->
                              cell t' a b = cell t a b))
              (fun i t' => x <- vec_index values (wrap (i - 1)) ;;
                           Table.set_element t' (row i) (col i) x)
              1 n t)
    as (t' & Hrun & WF' & Hshape & Hset & Hkeep).
  - lia.
  - split; [exact WF|]. split; [split; reflexivity|].
    split; [intros; lia | intros; reflexivity].
  - intros k t1 Hk (WF1 & [HM1 HN1] & Hset1 & Hkeep1).
    destruct (Hplace k Hk) as [Hrow Hcol].
    rewrite wrap_small by lia.
    rewrite (vec_index_nth _ _ e_zero) by lia. cbn [bind].
    rewrite set_element_stored by (try assumption; lia).
    eexists. split; [reflexivity|].
    split; [apply stored_wf; assumption|].
    split; [split; cbn; assumption|].
    split.
    + intros i Hi.
      destruct (Hplace i ltac:(lia)) as [Hri Hci].
      rewrite stored_cell by (try assumption; lia).
      destruct (Z.eq_dec i k) as [->|Hik].
      * rewrite !Z.eqb_refl. reflexivity.
      * destruct (Z.eqb_spec (row i) (row k)) as [Er|Nr];
          destruct (Z.eqb_spec (col i) (col k)) as [Ec|Nc]; cbn [andb];
          try (apply Hset1; lia).
        exfalso. apply Hik. apply Hinj; auto; lia.
    + intros a b Ha Hb Hnot.
      rewrite stored_cell by (try assumption; lia).
      destruct (Z.eqb_spec a (row k)) as [Er|Nr];
        destruct (Z.eqb_spec b (col k)) as [Ec|Nc]; cbn [andb];
        try (apply Hkeep1; auto; intros i Hi; apply Hnot; lia).
      exfalso. apply (Hnot k); [lia | auto].
  - exists t'. split; [exact Hrun|]. split; [exact WF'|]. split; [exact Hshape|].
    split.
    + intros i Hi. apply Hset. lia.
    + intros a b Ha Hb Hnot. apply Hkeep; auto. intros i Hi. apply Hnot. lia.
Qed.

Lemma set_row_cells t (r : Z) (values : list T) :
  table_wf t -> 1 <= r <= _M t -> vec_size values = _N t ->
  exists t',
    Table.set_row t r values = Val t' /\ table_wf t' /\ same_shape t t' /\
    (forall a b, 1 <= a <= _M t -> 1 <= b <= _N t ->
                 cell t' a b = if a =? r then nth (Z.to_nat (b - 1)) values e_zero
                               else cell t a b).
Proof.
  intros WF Hr Hsize. pose proof (dims_small t WF) as [HM HN].
  assert (Hn : 0 <= _N t < 2 ^ 64) by (destruct WF as (H1 & H2 & _); lia).
  assert (Hplace : forall i, 1 <= i <= _N t -> 1 <= r <= _M t /\ 1 <= i <= _N t) by (intros; lia).
  assert (Hinj : forall i i' : Z, 1 <= i <= _N t -> 1 <= i' <= _N t -> r = r -> i = i' -> i = i')
    by (intros; assumption).
  destruct (store_line t (_N t) values (fun _ => r) (fun i => i) WF Hn Hsize Hplace Hinj)
    as (t' & Hrun & WF' & Hshape & Hset & Hkeep).
  - exists t'. split; [|split; [exact WF'|]; split; [exact Hshape|]].
    + unfold Table.set_row, Table.get_M, Table.get_N.
      destruct (Z.gtb_spec r (_M t)); [lia|].
      rewrite Hsize, Z.eqb_refl. cbn [negb]. cbv beta in Hrun. rewrite Hrun. reflexivity.
    + intros a b Ha Hb. destruct (Z.eqb_spec a r) as [->|Hne].
      * apply Hset. assumption.
      * apply Hkeep; auto. intros i Hi [Ea Eb]. contradiction.
Qed.

(** [set_column] stores when the column index does not exceed the number
    of rows, the bound its guard tests. *)
Lemma set_column_cells t (c : Z) (values : list T) :
  table_wf t -> 1 <= c <= _N t -> c <= _M t -> vec_size values = _M t ->
  exists t',
    Table.set_column t c values = Val t' /\ table_wf t' /\ same_shape t t' /\
    (forall a b, 1 <= a <= _M t -> 1 <= b <= _N t ->
                 cell t' a b = if b =? c then nth (Z.to_nat (a - 1)) values e_zero
                               else cell t a b).
Proof.
  intros WF Hc HcM Hsize. pose proof (dims_small t WF) as [HM HN].
  assert (Hn : 0 <= _M t < 2 ^ 64) by (destruct WF as (H1 & H2 & _); lia).
  assert (Hplace : forall i, 1 <= i <= _M t -> 1 <= i <= _M t /\ 1 <= c <= _N t) by (intros; lia).
  assert (Hinj : forall i i' : Z, 1 <= i <= _M t -> 1 <= i' <= _M t -> i = i' -> c = c -> i = i')
    by (intros; assumption).
  destruct (store_line t (_M t) values (fun i => i) (fun _ => c) WF Hn Hsize Hplace Hinj)
    as (t' & Hrun & WF' & Hshape & Hset & Hkeep).
  - exists t'. split; [|split; [exact WF'|]; split; [exact Hshape|]].
    + unfold Table.set_column, Table.get_M, Table.get_N.
      destruct (Z.gtb_spec c (_M t)); [lia|].
      rewrite Hsize, Z.eqb_refl. cbn [negb]. cbv beta in Hrun. rewrite Hrun. reflexivity.
    + intros a b Ha Hb. destruct (Z.eqb_spec b c) as [->|Hne].
      * apply Hset. assumption.
      * apply Hkeep; auto. intros i Hi [Ea Eb]. contradiction.
Qed.

End TableRows.

(** ** What a user of the table observes *)

Section TableUse.
Context {T : Type} {E : Element T}.
Implicit Types t : numerical_table T.

Lemma row_of_ext t t' (a : Z) :
  _N t' = _N t ->
  (forall j, 1 <= j <= _N t -> cell t' a j = cell t a j) ->
  row_of t' a = row_of t a.
Proof.
  intros HN H. unfold row_of. rewrite HN. apply map_ext_in.
  intros j Hj. apply range_bounds in Hj. apply H. lia.
Qed.

Lemma column_of_ext t t' (b : Z) :
  _M t' = _M t ->
  (forall i, 1 <= i <= _M t -> cell t' i b = cell t i b) ->
  column_of t' b = column_of t b.
Proof.
  intros HM H. unfold column_of. rewrite HM. apply map_ext_in.
  intros i Hi. apply range_bounds in Hi. apply H. lia.
Qed.

Lemma row_of_values t (r : Z) (values : list T) :
  vec_size values = _N t ->
  (forall j, 1 <= j <= _N t -> cell t r j = nth (Z.to_nat (j - 1)) values e_zero) ->
  row_of t r = values.
Proof.
  intros Hsize H. unfold vec_size in Hsize. apply (list_eq_nth e_zero).
  - rewrite row_of_length. lia.
  - intros k Hk. rewrite row_of_length in Hk.
    unfold row_of. rewrite nth_map_range by lia.
    rewrite H by lia. f_equal. lia.
Qed.

Lemma column_of_values t (c : Z) (values : list T) :
  vec_size values = _M t ->
  (forall i, 1 <= i <= _M t -> cell t i c = nth (Z.to_nat (i - 1)) values e_zero) ->
  column_of t c = values.
Proof.
  intros Hsize H. unfold vec_size in Hsize. apply (list_eq_nth e_zero).
  - rewrite column_of_length. lia.
  - intros k Hk. rewrite column_of_length in Hk.
    unfold column_of. rewrite nth_map_range by lia.
    rewrite H by lia. f_equal. lia.
Qed.

Lemma make_table (M N : Z) (data : list T) :
  1 <= M -> 1 <= N -> M * N < 2 ^ 64 ->
  Table.make M N data
  = Val {| _M := M; _N := N; _data := vec_resize e_zero (M * N) data |}.
Proof.
  intros HM HN H64. unfold Table.make.
  destruct (Z.eqb_spec M 0); [lia|]. destruct (Z.eqb_spec N 0); [lia|].
  rewrite wrap_small by nia. reflexivity.
Qed.

Lemma vec_resize_nth (n : Z) (data : list T) (k : nat) :
  (k < Z.to_nat n)%nat ->
  nth k (vec_resize e_zero n data) e_zero = nth k data e_zero.
Proof.
  intros Hk. unfold vec_resize.
  destruct (Nat.lt_ge_cases k (length data)) as [Hin|Hout].
  - rewrite app_nth1 by (rewrite length_firstn; lia).
    rewrite nth_firstn. destruct (Nat.ltb_spec k (Z.to_nat n)); [reflexivity | lia].
  - rewrite (nth_overflow data) by lia.
    rewrite app_nth2 by (rewrite length_firstn; lia).
    apply nth_repeat.
Qed.


(** Storing then reading: after [set_element(i, j, v)] with indices in
    range, [get_element(i, j)] returns [v], every other cell reads as
    before, and the dimensions are unchanged. *)
Theorem set_then_get_element t (i j : Z) (v : T) :
  table_wf t -> 1 <= i <= _M t -> 1 <= j <= _N t ->
  exists t',
    Table.set_element t i j v = Val t' /\ table_wf t' /\ same_shape t t' /\
    Table.get_element t' i j = Val (Some v) /\
    forall a b, 1 <= a <= _M t -> 1 <= b <= _N t -> (a <> i \/ b <> j) ->
                Table.get_element t' a b = Table.get_element t a b.
Proof.
  intros WF Hi Hj. exists (stored t i j v).
  pose proof (stored_wf t i j v WF) as WF'.
  split; [apply set_element_stored; assumption|].
  split; [exact WF'|]. split; [split; reflexivity|]. split.
  - rewrite get_element_cell by (try exact WF'; cbn; assumption).
    rewrite stored_cell by assumption. rewrite !Z.eqb_refl. reflexivity.
  - intros a b Ha Hb Hne.
    rewrite !get_element_cell by (try assumption; cbn; assumption).
    rewrite stored_cell by assumption.
    destruct (Z.eqb_spec a i); destruct (Z.eqb_spec b j); cbn [andb]; try reflexivity.
    lia.
Qed.

(** [get_row(r)] for a row in range returns the [N] elements that
    [get_element(r, 1)], ..., [get_element(r, N)] return, and
    [get_column(c)] the [M] elements of column [c]; beyond the last row
    or column the result is absent. *)
Theorem get_row_and_column t :
  table_wf t ->
  (forall r, 1 <= r <= _M t ->
     exists line, Table.get_row t r = Val (Some line) /\ vec_size line = _N t /\
       forall j, 1 <= j <= _N t ->
         Table.get_element t r j = Val (Some (nth (Z.to_nat (j - 1)) line e_zero))) /\
  (forall c, 1 <= c <= _N t ->
     exists line, Table.get_column t c = Val (Some line) /\ vec_size line = _M t /\
       forall i, 1 <= i <= _M t ->
         Table.get_element t i c = Val (Some (nth (Z.to_nat (i - 1)) line e_zero))) /\
  (forall r, r > _M t -> Table.get_row t r = Val None) /\
  (forall c, c > _N t -> Table.get_column t c = Val None).
Proof.
  intros WF. pose proof WF as (H1 & H2 & _). repeat split.
  - intros r Hr. exists (row_of t r). split; [apply get_row_row_of; assumption|].
    split; [unfold vec_size; rewrite row_of_length; lia|].
    intros j Hj. rewrite row_of_nth by assumption. apply get_element_cell; assumption.
  - intros c Hc. exists (column_of t c). split; [apply get_column_column_of; assumption|].
    split; [unfold vec_size; rewrite column_of_length; lia|].
    intros i Hi. rewrite column_of_nth by assumption. apply get_element_cell; assumption.
  - intros r Hr. unfold Table.get_row, Table.get_M.
    destruct (Z.gtb_spec r (_M t)); [reflexivity | lia].
  - intros c Hc. unfold Table.get_column, Table.get_N.
    destruct (Z.gtb_spec c (_N t)); [reflexivity | lia].
Qed.

(** [set_row(r, values)] with a row in range and [N] values: afterwards
    [get_row(r)] returns [values] and every other row is as before. *)
Theorem set_then_get_row t (r : Z) (values : list T) :
  table_wf t -> 1 <= r <= _M t -> vec_size values = _N t ->
  exists t',
    Table.set_row t r values = Val t' /\ table_wf t' /\ same_shape t t' /\
    Table.get_row t' r = Val (Some values) /\
    forall a, 1 <= a <= _M t -> a <> r -> Table.get_row t' a = Table.get_row t a.
Proof.
  intros WF Hr Hsize.
  destruct (set_row_cells t r values WF Hr Hsize) as (t' & Hset & WF' & [HM HN] & Hcells).
  exists t'. split; [exact Hset|]. split; [exact WF'|]. split; [split; assumption|].
  split.
  - rewrite get_row_row_of by (try assumption; lia).
    do 2 f_equal. apply row_of_values; [lia|].
    intros j Hj. rewrite Hcells by lia. rewrite Z.eqb_refl. reflexivity.
  - intros a Ha Hne.
    rewrite !get_row_row_of by (try assumption; lia).
    do 2 f_equal. apply row_of_ext; [assumption|].
    intros j Hj. rewrite Hcells by lia.
    destruct (Z.eqb_spec a r); [contradiction | reflexivity].
Qed.

(** [set_column(c, values)] with [M] values and a column that is in range
    and not beyond the number of rows: afterwards [get_column(c)] returns
    [values] and every other column is as before. *)
Theorem set_then_get_column t (c : Z) (values : list T) :
  table_wf t -> 1 <= c <= _N t -> c <= _M t -> vec_size values = _M t ->
  exists t',
    Table.set_column t c values = Val t' /\ table_wf t' /\ same_shape t t' /\
    Table.get_column t' c = Val (Some values) /\
    forall b, 1 <= b <= _N t -> b <> c -> Table.get_column t' b = Table.get_column t b.
Proof.
  intros WF Hc HcM Hsize.
  destruct (set_column_cells t c values WF Hc HcM Hsize)
    as (t' & Hset & WF' & [HM HN] & Hcells).
  exists t'. split; [exact Hset|]. split; [exact WF'|]. split; [split; assumption|].
  split.
  - rewrite get_column_column_of by (try assumption; lia).
    do 2 f_equal. apply column_of_values; [lia|].
    intros i Hi. rewrite Hcells by lia. rewrite Z.eqb_refl. reflexivity.
  - intros b Hb Hne.
    rewrite !get_column_column_of by (try assumption; lia).
    do 2 f_equal. apply column_of_ext; [assumption|].
    intros i Hi. rewrite Hcells by lia.
    destruct (Z.eqb_spec b c); [contradiction | reflexivity].
Qed.

End TableUse.


Lemma set_then_get_element_witness :
  exists t',
    Table.set_element Examples.table_2x2 1 2 (dz 9) = Val t' /\ table_wf t' /\
    same_shape Examples.table_2x2 t' /\
    Table.get_element t' 1 2 = Val (Some (dz 9)) /\
    forall a b, 1 <= a <= _M Examples.table_2x2 -> 1 <= b <= _N Examples.table_2x2 ->
                (a <> 1 \/ b <> 2) ->
                Table.get_element t' a b = Table.get_element Examples.table_2x2 a b.
Proof.
  apply (set_then_get_element Examples.table_2x2 1 2 (dz 9)); concrete.
Defined.

Lemma get_row_and_column_witness :
  exists line, Table.get_row Examples.table_2x2 2 = Val (Some line) /\
    vec_size line = _N Examples.table_2x2 /\
    forall j, 1 <= j <= _N Examples.table_2x2 ->
      Table.get_element Examples.table_2x2 2 j
      = Val (Some (nth (Z.to_nat (j - 1)) line e_zero)).
Proof.
  apply (proj1 (get_row_and_column Examples.table_2x2 ltac:(concrete))); concrete.
Defined.

Lemma set_then_get_row_witness :
  exists t',
    Table.set_row Examples.table_2x2 2 [dz 7; dz 8] = Val t' /\ table_wf t' /\
    same_shape Examples.table_2x2 t' /\
    Table.get_row t' 2 = Val (Some [dz 7; dz 8]) /\
    forall a, 1 <= a <= _M Examples.table_2x2 -> a <> 2 ->
              Table.get_row t' a = Table.get_row Examples.table_2x2 a.
Proof.
  apply (set_then_get_row Examples.table_2x2 2 [dz 7; dz 8]); concrete.
Defined.

Lemma set_then_get_column_witness :
  exists t',
    Table.set_column Examples.table_2x2 2 [dz 7; dz 8] = Val t' /\ table_wf t' /\
    same_shape Examples.table_2x2 t' /\
    Table.get_column t' 2 = Val (Some [dz 7; dz 8]) /\
    forall b, 1 <= b <= _N Examples.table_2x2 -> b <> 2 ->
              Table.get_column t' b = Table.get_column Examples.table_2x2 b.
Proof.
  apply (set_then_get_column Examples.table_2x2 2 [dz 7; dz 8]); concrete.
Defined.

(** ** Exchanging rows and columns, transposing, resizing *)

Section TableShape.
Context {T : Type} {E : Element T}.
Implicit Types t : numerical_table T.

Lemma swap_row_cells t (i j : Z) :
  table_wf t -> 1 <= i <= _M t -> 1 <= j <= _M t ->
  exists t',
    Table.swap_row t i j = Val t' /\ table_wf t' /\ same_shape t t' /\
    forall a b, 1 <= a <= _M t -> 1 <= b <= _N t ->
      cell t' a b = cell t (if a =? i then j else if a =? j then i else a) b.
Proof.
  intros WF Hi Hj. pose proof WF as (H1 & H2 & _).
  assert (Hsz : forall r, vec_size (row_of t r) = _N t)
    by (intros r; unfold vec_size; rewrite row_of_length; lia).
  destruct (set_row_cells t i (row_of t j) WF Hi (Hsz j))
    as (t1 & Hset1 & WF1 & [HM1 HN1] & Hc1).
  destruct (set_row_cells t1 j (row_of t i) WF1 ltac:(lia) ltac:(rewrite Hsz; lia))
    as (t2 & Hset2 & WF2 & [HM2 HN2] & Hc2).
  exists t2. split; [|split; [exact WF2|]; split; [split; lia|]].
  - unfold Table.swap_row, Table.get_M.
    destruct (Z.gtb_spec i (_M t)); [lia|]. destruct (Z.gtb_spec j (_M t)); [lia|].
    cbn [orb]. rewrite !get_row_row_of by assumption. cbn [bind deref].
    rewrite Hset1. cbn [bind]. rewrite Hset2. reflexivity.
  - intros a b Ha Hb. rewrite Hc2 by lia.
    destruct (Z.eqb_spec a j) as [->|Hnj].
    + rewrite row_of_nth by assumption.
      destruct (Z.eqb_spec j i) as [->|]; reflexivity.
    + rewrite Hc1 by lia.
      destruct (Z.eqb_spec a i) as [->|]; [apply row_of_nth; assumption | reflexivity].
Qed.

(** [swap_row(i, j)] with both rows in range: row [i] then reads as row
    [j] did and row [j] as row [i] did, the other rows are as before, and
    exchanging the same rows again restores the table. *)
Theorem swap_row_exchanges t (i j : Z) :
  table_wf t -> 1 <= i <= _M t -> 1 <= j <= _M t ->
  exists t',
    Table.swap_row t i j = Val t' /\ table_wf t' /\ same_shape t t' /\
    Table.get_row t' i = Table.get_row t j /\
    Table.get_row t' j = Table.get_row t i /\
    (forall a, 1 <= a <= _M t -> a <> i -> a <> j ->
               Table.get_row t' a = Table.get_row t a) /\
    Table.swap_row t' i j = Val t.
Proof.
  intros WF Hi Hj.
  destruct (swap_row_cells t i j WF Hi Hj) as (t' & Hswap & WF' & [HM HN] & Hc).
  exists t'. split; [exact Hswap|]. split; [exact WF'|]. split; [split; assumption|].
  assert (Hrow : forall a, 1 <= a <= _M t ->
            Table.get_row t' a
            = Table.get_row t (if a =? i then j else if a =? j then i else a)).
  { intros a Ha.
    assert (Hs : 1 <= (if a =? i then j else if a =? j then i else a) <= _M t)
      by (destruct (a =? i); [|destruct (a =? j)]; lia).
    rewrite !get_row_row_of by (assumption || lia).
    do 2 f_equal. unfold row_of. rewrite HN. apply map_ext_in.
    intros b Hb. apply range_bounds in Hb. apply Hc; lia. }
  split; [rewrite Hrow by assumption; rewrite Z.eqb_refl; reflexivity|].
  split.
  { rewrite Hrow by assumption. rewrite Z.eqb_refl.
    destruct (Z.eqb_spec j i) as [->|]; reflexivity. }
  split.
  { intros a Ha Hai Haj. rewrite Hrow by assumption.
    destruct (Z.eqb_spec a i); [contradiction|].
    destruct (Z.eqb_spec a j); [contradiction | reflexivity]. }
  destruct (swap_row_cells t' i j WF' ltac:(lia) ltac:(lia))
    as (t'' & Hswap' & WF'' & [HM' HN'] & Hc').
  rewrite Hswap'. f_equal.
  apply table_ext; [assumption | assumption | split; lia |].
  intros a b Ha Hb. rewrite Hc' by lia.
  assert (Hs : 1 <= (if a =? i then j else if a =? j then i else a) <= _M t)
    by (destruct (a =? i); [|destruct (a =? j)]; lia).
  rewrite Hc by lia.
  destruct (Z.eqb_spec a i) as [->|Hai].
  - rewrite Z.eqb_refl. destruct (Z.eqb_spec j i) as [->|]; reflexivity.
  - destruct (Z.eqb_spec a j) as [->|Haj].
    + rewrite Z.eqb_refl. reflexivity.
    + destruct (Z.eqb_spec a i); [contradiction|].
      destruct (Z.eqb_spec a j); [contradiction | reflexivity].
Qed.

Lemma swap_column_cells t (i j : Z) :
  table_wf t -> 1 <= i <= _N t -> 1 <= j <= _N t -> i <= _M t -> j <= _M t ->
  exists t',
    Table.swap_column t i j = Val t' /\ table_wf t' /\ same_shape t t' /\
    forall a b, 1 <= a <= _M t -> 1 <= b <= _N t ->
      cell t' a b = cell t a (if b =? i then j else if b =? j then i else b).
Proof.
  intros WF Hi Hj HiM HjM. pose proof WF as (H1 & H2 & _).
  assert (Hsz : forall c, vec_size (column_of t c) = _M t)
    by (intros c; unfold vec_size; rewrite column_of_length; lia).
  destruct (set_column_cells t i (column_of t j) WF Hi HiM (Hsz j))
    as (t1 & Hset1 & WF1 & [HM1 HN1] & Hc1).
  destruct (set_column_cells t1 j (column_of t i) WF1 ltac:(lia) ltac:(lia)
              ltac:(rewrite Hsz; lia))
    as (t2 & Hset2 & WF2 & [HM2 HN2] & Hc2).
  exists t2. split; [|split; [exact WF2|]; split; [split; lia|]].
  - unfold Table.swap_column, Table.get_N.
    destruct (Z.gtb_spec i (_N t)); [lia|]. destruct (Z.gtb_spec j (_N t)); [lia|].
    cbn [orb]. rewrite !get_column_column_of by assumption. cbn [bind deref].
    rewrite Hset1. cbn [bind]. rewrite Hset2. reflexivity.
  - intros a b Ha Hb. rewrite Hc2 by lia.
    destruct (Z.eqb_spec b j) as [->|Hnj].
    + rewrite column_of_nth by assumption.
      destruct (Z.eqb_spec j i) as [->|]; reflexivity.
    + rewrite Hc1 by lia.
      destruct (Z.eqb_spec b i) as [->|]; [apply column_of_nth; assumption | reflexivity].
Qed.

(** [swap_column(i, j)] exchanges the two columns when both are in range
    and neither index exceeds the number of rows. *)
Theorem swap_column_exchanges t (i j : Z) :
  table_wf t -> 1 <= i <= _N t -> 1 <= j <= _N t -> i <= _M t -> j <= _M t ->
  exists t',
    Table.swap_column t i j = Val t' /\ table_wf t' /\ same_shape t t' /\
    Table.get_column t' i = Table.get_column t j /\
    Table.get_column t' j = Table.get_column t i /\
    (forall b, 1 <= b <= _N t -> b <> i -> b <> j ->
               Table.get_column t' b = Table.get_column t b).
Proof.
  intros WF Hi Hj HiM HjM.
  destruct (swap_column_cells t i j WF Hi Hj HiM HjM) as (t' & Hswap & WF' & [HM HN] & Hc).
  exists t'. split; [exact Hswap|]. split; [exact WF'|]. split; [split; assumption|].
  assert (Hcol : forall b, 1 <= b <= _N t ->
            Table.get_column t' b
            = Table.get_column t (if b =? i then j else if b =? j then i else b)).
  { intros b Hb.
    assert (Hs : 1 <= (if b =? i then j else if b =? j then i else b) <= _N t)
      by (destruct (b =? i); [|destruct (b =? j)]; lia).
    rewrite !get_column_column_of by (assumption || lia).
    do 2 f_equal. unfold column_of. rewrite HM. apply map_ext_in.
    intros a Ha. apply range_bounds in Ha. apply Hc; lia. }
  split; [rewrite Hcol by assumption; rewrite Z.eqb_refl; reflexivity|].
  split.
  { rewrite Hcol by assumption. rewrite Z.eqb_refl.
    destruct (Z.eqb_spec j i) as [->|]; reflexivity. }
  intros b Hb Hbi Hbj. rewrite Hcol by assumption.
  destruct (Z.eqb_spec b i); [contradiction|].
  destruct (Z.eqb_spec b j); [contradiction | reflexivity].
Qed.

Lemma made_wf (M N : Z) (data : list T) :
  1 <= M -> 1 <= N -> M * N < 2 ^ 64 ->
  table_wf {| _M := M; _N := N; _data := vec_resize e_zero (M * N) data |}.
Proof.
  intros HM HN H64. unfold table_wf. cbn.
  repeat split; try lia. apply vec_resize_length. nia.
Qed.

Lemma transpose_cells t :
  table_wf t ->
  exists t',
    Table.transpose t = Val t' /\ table_wf t' /\ _M t' = _N t /\ _N t' = _M t /\
    forall i j, 1 <= i <= _M t -> 1 <= j <= _N t -> cell t' j i = cell t i j.
Proof.
  intros WF. pose proof WF as (H1 & H2 & H3 & H4).
  pose proof (dims_small t WF) as [HM HN].
  set (Inv := fun (row col : Z) (res : numerical_table T) =>
         table_wf res /\ _M res = _N t /\ _N res = _M t /\
         forall a b, 1 <= a <= _M t -> 1 <= b <= _N t ->
                     (a < row \/ (a = row /\ b < col)) -> cell res b a = cell t a b).
  unfold Table.transpose, Table.get_M, Table.get_N.
  rewrite make_table by lia. cbn [bind].
  destruct (for_loop_invariant (fun row res => Inv row 1 res)
              (fun row result =>
                 for_loop 1 (_N t)
                   (fun column result =>
                      e <- Table.get_element t row column ;;
                      x <- deref e ;;
                      Table.set_element result column row x) result)
              1 (_M t)
              {| _M := _N t; _N := _M t; _data := vec_resize e_zero (_N t * _M t) [e_zero] |})
    as (t' & Hrun & WF' & HM' & HN' & Hc).
  - lia.
  - split; [apply made_wf; lia|]. split; [reflexivity|]. split; [reflexivity|].
    intros; lia.
  - intros row res Hrow Hinv.
    destruct (for_loop_invariant (fun col res => Inv row col res)
                (fun column result =>
                   e <- Table.get_element t row column ;;
                   x <- deref e ;;
                   Table.set_element result column row x)
                1 (_N t) res)
      as (res' & Hrun' & WFr & HMr & HNr & Hcr).
    + lia.
    + exact Hinv.
    + intros col res1 Hcol (WF1 & HM1 & HN1 & Hc1).
      rewrite get_element_cell by assumption. cbn [bind deref].
      rewrite set_element_stored by (try assumption; lia).
      eexists. split; [reflexivity|].
      split; [apply stored_wf; assumption|]. split; [assumption|]. split; [assumption|].
      intros a b Ha Hb Hlt.
      rewrite stored_cell by (try assumption; lia).
      destruct (Z.eqb_spec b col) as [->|Hb']; destruct (Z.eqb_spec a row) as [->|Ha'];
        cbn [andb]; try reflexivity; apply Hc1; try assumption; lia.
    + exists res'. split; [exact Hrun'|]. split; [exact WFr|].
      split; [exact HMr|]. split; [exact HNr|].
      intros a b Ha Hb Hlt. apply Hcr; try assumption. lia.
  - exists t'. rewrite Hrun. split; [reflexivity|]. split; [exact WF'|].
    split; [exact HM'|]. split; [exact HN'|].
    intros i j Hi Hj. apply Hc; try assumption. lia.
Qed.

(** [transpose()] of a table returns the table with the dimensions
    exchanged whose element (j, i) is the element (i, j) of the receiver;
    transposing the result gives the receiver back. *)
Theorem transpose_involutive t :
  table_wf t ->
  exists t',
    Table.transpose t = Val t' /\ table_wf t' /\ _M t' = _N t /\ _N t' = _M t /\
    (forall i j, 1 <= i <= _M t -> 1 <= j <= _N t ->
                 Table.get_element t' j i = Table.get_element t i j) /\
    Table.transpose t' = Val t.
Proof.
  intros WF.
  destruct (transpose_cells t WF) as (t' & Htr & WF' & HM & HN & Hc).
  exists t'. split; [exact Htr|]. split; [exact WF'|]. split; [exact HM|]. split; [exact HN|].
  split.
  - intros i j Hi Hj. rewrite !get_element_cell by (try assumption; lia).
    rewrite Hc by assumption. reflexivity.
  - destruct (transpose_cells t' WF') as (t'' & Htr' & WF'' & HM' & HN' & Hc').
    rewrite Htr'. f_equal.
    apply table_ext; [assumption | assumption | split; lia |].
    intros i j Hi Hj. rewrite Hc' by lia. apply Hc; assumption.
Qed.

End TableShape.

Lemma swap_row_exchanges_witness :
  exists t',
    Table.swap_row Examples.table_2x2 1 2 = Val t' /\ table_wf t' /\
    same_shape Examples.table_2x2 t' /\
    Table.get_row t' 1 = Table.get_row Examples.table_2x2 2 /\
    Table.get_row t' 2 = Table.get_row Examples.table_2x2 1 /\
    (forall a, 1 <= a <= _M Examples.table_2x2 -> a <> 1 -> a <> 2 ->
               Table.get_row t' a = Table.get_row Examples.table_2x2 a) /\
    Table.swap_row t' 1 2 = Val Examples.table_2x2.
Proof.
  apply (swap_row_exchanges Examples.table_2x2 1 2); concrete.
Defined.

Lemma swap_column_exchanges_witness :
  exists t',
    Table.swap_column Examples.table_2x2 1 2 = Val t' /\ table_wf t' /\
    same_shape Examples.table_2x2 t' /\
    Table.get_column t' 1 = Table.get_column Examples.table_2x2 2 /\
    Table.get_column t' 2 = Table.get_column Examples.table_2x2 1 /\
    (forall b, 1 <= b <= _N Examples.table_2x2 -> b <> 1 -> b <> 2 ->
               Table.get_column t' b = Table.get_column Examples.table_2x2 b).
Proof.
  apply (swap_column_exchanges Examples.table_2x2 1 2); concrete.
Defined.

Lemma transpose_involutive_witness :
  exists t',
    Table.transpose Examples.table_1x2 = Val t' /\ table_wf t' /\
    _M t' = _N Examples.table_1x2 /\ _N t' = _M Examples.table_1x2 /\
    (forall i j, 1 <= i <= _M Examples.table_1x2 -> 1 <= j <= _N Examples.table_1x2 ->
                 Table.get_element t' j i = Table.get_element Examples.table_1x2 i j) /\
    Table.transpose t' = Val Examples.table_1x2.
Proof.
  apply (transpose_involutive Examples.table_1x2); concrete.
Defined.

Section TableResize.
Context {T : Type} {E : Element T}.
Implicit Types t : numerical_table T.

Lemma set_N_cells t (N' : Z) :
  table_wf t -> 1 <= N' -> _M t * N' < 2 ^ 64 ->
  table_wf (Table.set_N t N') /\ _M (Table.set_N t N') = _M t /\
  _N (Table.set_N t N') = N' /\
  forall i j, 1 <= i <= _M t -> 1 <= j <= N' ->
    cell (Table.set_N t N') i j = if j <=? _N t then cell t i j else e_zero.
Proof.
  intros WF HN' H64. pose proof WF as (H1 & H2 & H3 & H4).
  unfold Table.set_N. destruct (Z.eqb_spec N' 0); [lia|].
  rewrite wrap_small by nia.
  split; [apply made_wf; assumption|]. split; [reflexivity|]. split; [reflexivity|].
  intros i j Hi Hj. unfold cell. cbn [_M _N _data].
  rewrite vec_resize_nth by nia.
  destruct (Z.leb_spec j (_N t)); [reflexivity|].
  apply nth_overflow. nia.
Qed.

(** [set_N(N')] with a positive column count: the table keeps its rows
    and has [N'] columns; the elements of the columns that remain are
    kept, and the elements of new columns are 0.  [set_N(0)] changes
    nothing. *)
Theorem set_N_keeps_columns t (N' : Z) :
  table_wf t ->
  Table.set_N t 0 = t /\
  (1 <= N' -> _M t * N' < 2 ^ 64 ->
   table_wf (Table.set_N t N') /\ _M (Table.set_N t N') = _M t /\
   _N (Table.set_N t N') = N' /\
   forall i j, 1 <= i <= _M t -> 1 <= j <= N' ->
     Table.get_element (Table.set_N t N') i j
     = if j <=? _N t then Table.get_element t i j else Val (Some e_zero)).
Proof.
  intros WF. split; [reflexivity|]. intros HN' H64.
  destruct (set_N_cells t N' WF HN' H64) as (WF' & HM & HN & Hc).
  split; [exact WF'|]. split; [exact HM|]. split; [exact HN|].
  intros i j Hi Hj. rewrite get_element_cell by (try assumption; lia).
  rewrite Hc by assumption.
  destruct (Z.leb_spec j (_N t)); [|reflexivity].
  rewrite get_element_cell by (try assumption; lia). reflexivity.
Qed.

Lemma set_M_cells t (M' : Z) :
  table_wf t -> 1 <= M' -> M' * _N t < 2 ^ 64 ->
  exists t',
    Table.set_M t M' = Val t' /\ table_wf t' /\ _M t' = M' /\ _N t' = _N t /\
    forall i j, 1 <= i <= M' -> 1 <= j <= _N t ->
      cell t' i j = if i <=? _M t then cell t i j else e_zero.
Proof.
  intros WF HM' H64.
  destruct (transpose_cells t WF) as (tmp & Htr & WFtmp & HMtmp & HNtmp & Hctmp).
  destruct (set_N_cells tmp M' WFtmp HM' ltac:(rewrite HMtmp; lia))
    as (WFs & HMs & HNs & Hcs).
  destruct (transpose_cells (Table.set_N tmp M') WFs) as (t' & Htr' & WF' & HM & HN & Hc).
  exists t'. split; [|split; [exact WF'|]; split; [lia|]; split; [lia|]].
  - unfold Table.set_M. destruct (Z.eqb_spec M' 0); [lia|].
    rewrite Htr. cbn [bind]. rewrite Htr'. reflexivity.
  - intros i j Hi Hj. rewrite Hc by lia. rewrite Hcs by lia. rewrite HNtmp.
    destruct (Z.leb_spec i (_M t)); [|reflexivity].
    apply Hctmp; lia.
Qed.

(** [set_M(M')] with a positive row count, through its two transposes:
    the table keeps its columns and has [M'] rows; the elements of the
    rows that remain are kept, and the elements of new rows are 0.
    [set_M(0)] changes nothing. *)
Theorem set_M_keeps_rows t (M' : Z) :
  table_wf t ->
  Table.set_M t 0 = Val t /\
  (1 <= M' -> M' * _N t < 2 ^ 64 ->
   exists t',
     Table.set_M t M' = Val t' /\ table_wf t' /\ _M t' = M' /\ _N t' = _N t /\
     forall i j, 1 <= i <= M' -> 1 <= j <= _N t ->
       Table.get_element t' i j
       = if i <=? _M t then Table.get_element t i j else Val (Some e_zero)).
Proof.
  intros WF. split; [reflexivity|]. intros HM' H64.
  destruct (set_M_cells t M' WF HM' H64) as (t' & Hset & WF' & HM & HN & Hc).
  exists t'. split; [exact Hset|]. split; [exact WF'|]. split; [exact HM|]. split; [exact HN|].
  intros i j Hi Hj. rewrite get_element_cell by (try assumption; lia).
  rewrite Hc by assumption.
  destruct (Z.leb_spec i (_M t)); [|reflexivity].
  rewrite get_element_cell by (try assumption; lia). reflexivity.
Qed.

(** [det::set_N(n)] with a positive order: the determinant becomes one of
    order [n]; the elements whose row and column both existed before are
    kept and all others are 0. *)
Theorem det_set_N_keeps_block (d : det T) (n : Z) :
  well_formed d -> 1 <= n -> n * n < 2 ^ 64 ->
  exists d',
    Det.set_N d n = Val d' /\ well_formed d' /\ Det.get_N d' = n /\
    forall i j, 1 <= i <= n -> 1 <= j <= n ->
      Det.get_element d' i j
      = if (i <=? Det.get_N d) && (j <=? Det.get_N d) then Det.get_element d i j
        else Val (Some e_zero).
Proof.
  intros (H1 & HN & H64 & Hlen) Hn Hnn.
  assert (WF : table_wf (_nt d)) by (unfold table_wf; rewrite HN; auto).
  assert (Hmix : n * _M (_nt d) < 2 ^ 64) by nia.
  destruct (set_M_cells (_nt d) n WF Hn ltac:(rewrite HN; lia))
    as (t1 & Hset & WF1 & HM1 & HN1 & Hc1).
  destruct (set_N_cells t1 n WF1 Hn ltac:(rewrite HM1; lia)) as (WF2 & HM2 & HN2 & Hc2).
  exists {| _nt := Table.set_N t1 n |}.
  split; [unfold Det.set_N; rewrite Hset; reflexivity|].
  split.
  { destruct WF2 as (A & B & C & D). unfold well_formed. cbn [_nt].
    rewrite HM2, HN2, HM1 in *. repeat split; try lia. }
  split; [unfold Det.get_N, Table.get_M; cbn [_nt]; lia|].
  intros i j Hi Hj. unfold Det.get_element, Det.get_N, Table.get_M. cbn [_nt].
  rewrite get_element_cell by (try assumption; lia).
  rewrite Hc2 by lia. rewrite HN1, HN.
  destruct (Z.leb_spec j (_M (_nt d))); [|rewrite andb_false_r; reflexivity].
  rewrite Hc1 by lia.
  destruct (Z.leb_spec i (_M (_nt d))); cbn [andb]; [|reflexivity].
  rewrite get_element_cell by (try assumption; lia). reflexivity.
Qed.

End TableResize.

Lemma set_N_keeps_columns_witness :
  table_wf (Table.set_N Examples.table_2x2 3) /\
  _M (Table.set_N Examples.table_2x2 3) = _M Examples.table_2x2 /\
  _N (Table.set_N Examples.table_2x2 3) = 3 /\
  forall i j, 1 <= i <= _M Examples.table_2x2 -> 1 <= j <= 3 ->
    Table.get_element (Table.set_N Examples.table_2x2 3) i j
    = if j <=? _N Examples.table_2x2 then Table.get_element Examples.table_2x2 i j
      else Val (Some e_zero).
Proof.
  apply (proj2 (set_N_keeps_columns Examples.table_2x2 3 ltac:(concrete))); concrete.
Defined.

Lemma set_M_keeps_rows_witness :
  exists t',
    Table.set_M Examples.table_2x2 3 = Val t' /\ table_wf t' /\ _M t' = 3 /\
    _N t' = _N Examples.table_2x2 /\
    forall i j, 1 <= i <= 3 -> 1 <= j <= _N Examples.table_2x2 ->
      Table.get_element t' i j
      = if i <=? _M Examples.table_2x2 then Table.get_element Examples.table_2x2 i j
        else Val (Some e_zero).
Proof.
  apply (proj2 (set_M_keeps_rows Examples.table_2x2 3 ltac:(concrete))); concrete.
Defined.

Lemma det_set_N_keeps_block_witness :
  exists d',
    Det.set_N Examples.det_exchange 3 = Val d' /\ well_formed d' /\ Det.get_N d' = 3 /\
    forall i j, 1 <= i <= 3 -> 1 <= j <= 3 ->
      Det.get_element d' i j
      = if (i <=? Det.get_N Examples.det_exchange) && (j <=? Det.get_N Examples.det_exchange)
        then Det.get_element Examples.det_exchange i j
        else Val (Some e_zero).
Proof.
  apply (det_set_N_keeps_block Examples.det_exchange 3); concrete.
Defined.

(** ** Minors and cofactors *)

Section Minors.
Context {T : Type} {E : Element T}.

Lemma well_formed_table (d : det T) : well_formed d -> table_wf (_nt d).
Proof. intros (H1 & HN & H64 & Hlen). unfold table_wf. rewrite HN. auto. Qed.

Lemma table_well_formed (t : numerical_table T) :
  table_wf t -> _N t = _M t -> well_formed {| _nt := t |}.
Proof.
  intros (H1 & H2 & H3 & H4) HN. unfold well_formed. cbn [_nt].
  rewrite HN in *. auto.
Qed.

Lemma vec_erase_nth (v : list T) (p : Z) :
  0 <= p < Z.of_nat (length v) ->
  exists v', vec_erase v p = Val v' /\
             Z.of_nat (length v') = Z.of_nat (length v) - 1 /\
             forall k, (k < length v - 1)%nat ->
               nth k v' e_zero
               = nth (if (k <? Z.to_nat p)%nat then k else S k) v e_zero.
Proof.
  intros Hp. unfold vec_erase, in_bounds.
  destruct (Z.leb_spec 0 p); [|lia].
  destruct (Z.ltb_spec p (Z.of_nat (length v))); [|lia]. cbn [andb].
  eexists. split; [reflexivity|]. split.
  - rewrite length_app, length_firstn, length_skipn. lia.
  - intros k Hk. destruct (Nat.ltb_spec k (Z.to_nat p)) as [Hlt|Hge].
    + rewrite app_nth1 by (rewrite length_firstn; lia).
      rewrite nth_firstn. destruct (Nat.ltb_spec k (Z.to_nat p)); [reflexivity | lia].
    + rewrite app_nth2 by (rewrite length_firstn; lia).
      rewrite length_firstn, nth_skipn. f_equal. lia.
Qed.

Lemma m_i_j_cells (d : det T) (i j : Z) :
  well_formed d -> 2 <= Det.get_N d ->
  1 <= i <= Det.get_N d -> 1 <= j <= Det.get_N d ->
  exists m,
    Det.m_i_j d i j = Val (Some m) /\ well_formed m /\
    Det.get_N m = Det.get_N d - 1 /\
    forall r c, 1 <= r <= Det.get_N d - 1 -> 1 <= c <= Det.get_N d - 1 ->
      cell (_nt m) r c
      = cell (_nt d) (if r <? i then r else r + 1) (if c <? j then c else c + 1).
Proof.
  intros WFd HN2 Hi Hj.
  pose proof (well_formed_table d WFd) as WF.
  pose proof WFd as (H1 & HNM & H64 & Hlen).
  unfold Det.get_N, Table.get_M in *.
  set (N := _M (_nt d)) in *.
  assert (HN64 : N < 2 ^ 64) by nia.
  set (skip := fun (i r : Z) => if r <? i then r else r + 1).
  set (Inv := fun (k : Z) (res : det T) =>
         table_wf (_nt res) /\ _M (_nt res) = N - 1 /\ _N (_nt res) = N - 1 /\
         forall r c, 1 <= r <= N - 1 -> 1 <= c <= N - 1 -> skip i r < k ->
                     cell (_nt res) r c = cell (_nt d) (skip i r) (skip j c)).
  unfold Det.m_i_j, Det.get_N, Table.get_M. fold N.
  destruct (Z.ltb_spec i 1); [lia|]. destruct (Z.gtb_spec i N); [lia|].
  destruct (Z.ltb_spec j 1); [lia|]. destruct (Z.gtb_spec j N); [lia|].
  destruct (Z.eqb_spec N 1); [lia|]. cbn [orb].
  rewrite wrap_small by lia.
  unfold Det.make. rewrite make_table by nia. cbn [bind].
  destruct (for_loop_invariant Inv
              (fun index result =>
                 if index =? i then Val result
                 else
                   r <- Det.get_row d index ;;
                   line <- deref r ;;
                   line <- vec_erase line (wrap (j - 1)) ;;
                   if index <? i then Det.set_row result index line
                   else Det.set_row result (wrap (index - 1)) line)
              1 N
              {| _nt := {| _M := N - 1; _N := N - 1;
                           _data := vec_resize e_zero ((N - 1) * (N - 1)) [e_zero] |} |})
    as (m & Hrun & WFm & HMm & HNm & Hc).
  - lia.
  - split; [apply made_wf; nia|]. split; [reflexivity|]. split; [reflexivity|].
    intros r c Hr Hc Hlt. unfold skip in Hlt. destruct (r <? i); lia.
  - intros k res Hk (WFr & HMr & HNr & Hcr).
    destruct (Z.eqb_spec k i) as [->|Hki].
    + exists res. split; [reflexivity|]. split; [exact WFr|].
      split; [exact HMr|]. split; [exact HNr|].
      intros r c Hr Hc Hlt. apply Hcr; try assumption.
      unfold skip in *. destruct (Z.ltb_spec r i); lia.
    + unfold Det.get_row. rewrite get_row_row_of by (try assumption; fold N; lia).
      cbn [bind deref]. rewrite wrap_small by lia.
      destruct (vec_erase_nth (row_of (_nt d) k) (j - 1)) as (line & Her & Hlen' & Hnth).
      { rewrite row_of_length. rewrite HNM. fold N. lia. }
      rewrite Her. cbn [bind].
      rewrite row_of_length, HNM in Hlen', Hnth. fold N in Hlen', Hnth.
      set (r0 := if k <? i then k else k - 1).
      assert (Hr0 : 1 <= r0 <= N - 1) by (unfold r0; destruct (Z.ltb_spec k i); lia).
      assert (Hskip0 : skip i r0 = k).
      { unfold skip, r0. destruct (Z.ltb_spec k i).
        - destruct (Z.ltb_spec k i); lia.
        - destruct (Z.ltb_spec (k - 1) i); lia. }
      destruct (set_row_cells (_nt res) r0 line WFr ltac:(lia)
                  ltac:(unfold vec_size; lia))
        as (t' & Hset & WF' & [HM' HN'] & Hc').
      exists {| _nt := t' |}. split.
      { unfold Det.set_row, r0 in *. destruct (Z.ltb_spec k i).
        - rewrite Hset. reflexivity.
        - rewrite wrap_small by lia. rewrite Hset. reflexivity. }
      unfold Inv. cbn [_nt]. split; [exact WF'|]. split; [lia|]. split; [lia|].
      intros r c Hr Hc Hlt. rewrite Hc' by lia.
      destruct (Z.eqb_spec r r0) as [->|Hne].
      * rewrite Hnth by lia. rewrite Hskip0.
        unfold row_of. rewrite nth_map_range
          by (rewrite HNM; fold N; destruct (Nat.ltb_spec (Z.to_nat (c - 1)) (Z.to_nat (j - 1))); lia).
        f_equal. unfold skip.
        destruct (Nat.ltb_spec (Z.to_nat (c - 1)) (Z.to_nat (j - 1)));
          destruct (Z.ltb_spec c j); lia.
      * apply Hcr; try assumption.
        assert (skip i r <> k).
        { intros Heq. apply Hne. unfold skip, r0 in *.
          destruct (Z.ltb_spec r i); destruct (Z.ltb_spec k i); lia. }
        lia.
  - exists m. rewrite Hrun. split; [reflexivity|].
    split.
    { destruct WFm as (A & B & C & D). unfold well_formed.
      rewrite HNm, HMm in *. repeat split; lia. }
    split; [exact HMm|].
    intros r c Hr Hc'. apply Hc; try assumption.
    unfold skip. destruct (Z.ltb_spec r i); lia.
Qed.

Lemma m_i_j_absent (d : det T) (i j : Z) :
  i < 1 \/ i > Det.get_N d \/ j < 1 \/ j > Det.get_N d \/ Det.get_N d = 1 ->
  Det.m_i_j d i j = Val None.
Proof.
  intros H. unfold Det.m_i_j.
  destruct (Z.ltb_spec i 1); [reflexivity|].
  destruct (Z.gtb_spec i (Det.get_N d)); [reflexivity|].
  destruct (Z.ltb_spec j 1); [reflexivity|].
  destruct (Z.gtb_spec j (Det.get_N d)); [reflexivity|].
  destruct (Z.eqb_spec (Det.get_N d) 1); [reflexivity|]. lia.
Qed.

(** [m_i_j(i, j)] is absent when [i] or [j] is outside [1, N] or the
    order is 1; otherwise it is the determinant of order [N - 1] whose
    element (r, c) is the element of the receiver in the r-th row other
    than [i] and the c-th column other than [j]. *)
Theorem m_i_j_deletes_row_and_column (d : det T) (i j : Z) :
  well_formed d ->
  (i < 1 \/ i > Det.get_N d \/ j < 1 \/ j > Det.get_N d \/ Det.get_N d = 1 ->
   Det.m_i_j d i j = Val None) /\
  (2 <= Det.get_N d -> 1 <= i <= Det.get_N d -> 1 <= j <= Det.get_N d ->
   exists m,
     Det.m_i_j d i j = Val (Some m) /\ well_formed m /\
     Det.get_N m = Det.get_N d - 1 /\
     forall r c, 1 <= r <= Det.get_N d - 1 -> 1 <= c <= Det.get_N d - 1 ->
       Det.get_element m r c
       = Det.get_element d (if r <? i then r else r + 1) (if c <? j then c else c + 1)).
Proof.
  intros WFd. split.
  - apply m_i_j_absent.
  - intros HN2 Hi Hj.
    destruct (m_i_j_cells d i j WFd HN2 Hi Hj) as (m & Hm & WFm & HNm & Hc).
    exists m. split; [exact Hm|]. split; [exact WFm|]. split; [exact HNm|].
    intros r c Hr Hc'. unfold Det.get_element, Det.get_N, Table.get_M in *.
    pose proof (well_formed_table m WFm) as WFt.
    pose proof (well_formed_table d WFd) as WFdt.
    destruct WFm as (_ & HNMm & _). destruct WFd as (_ & HNMd & _).
    rewrite !get_element_cell
      by (try assumption; try (destruct (r <? i)); try (destruct (c <? j)); lia).
    rewrite Hc by assumption. reflexivity.
Qed.

End Minors.

Lemma m_i_j_deletes_row_and_column_witness :
  exists m,
    Det.m_i_j Examples.det_order_4 2 3 = Val (Some m) /\ well_formed m /\
    Det.get_N m = Det.get_N Examples.det_order_4 - 1 /\
    forall r c, 1 <= r <= Det.get_N Examples.det_order_4 - 1 ->
                1 <= c <= Det.get_N Examples.det_order_4 - 1 ->
      Det.get_element m r c
      = Det.get_element Examples.det_order_4
          (if r <? 2 then r else r + 1) (if c <? 3 then c else c + 1).
Proof.
  apply (proj2 (m_i_j_deletes_row_and_column Examples.det_order_4 2 3 ltac:(concrete)));
    concrete.
Defined.

(** ** Loops over the rows and over the cells of a table *)

Section TableLoops.
Context {T : Type} {E : Element T}.

Lemma rows_loop {St : Type} (proj : St -> numerical_table T) (s0 : St)
      (body : Z -> St -> outcome St) (f : Z -> Z -> T) :
  table_wf (proj s0) ->
  (forall k cur,
     1 <= k <= _M (proj s0) -> table_wf (proj cur) -> same_shape (proj s0) (proj cur) ->
     (forall a b, 1 <= a <= _M (proj s0) -> 1 <= b <= _N (proj s0) -> k <= a ->
                  cell (proj cur) a b = cell (proj s0) a b) ->
     exists cur',
       body k cur = Val cur' /\ table_wf (proj cur') /\ same_shape (proj s0) (proj cur') /\
       forall a b, 1 <= a <= _M (proj s0) -> 1 <= b <= _N (proj s0) ->
         cell (proj cur') a b = if a =? k then f k b else cell (proj cur) a b) ->
  exists s',
    for_loop 1 (_M (proj s0)) body s0 = Val s' /\ table_wf (proj s') /\
    same_shape (proj s0) (proj s') /\
    forall a b, 1 <= a <= _M (proj s0) -> 1 <= b <= _N (proj s0) ->
      cell (proj s') a b = f a b.
Proof.
  intros WF Hstep. pose proof WF as (H1 & _).
  destruct (for_loop_invariant
              (fun k s =>
                 table_wf (proj s) /\ same_shape (proj s0) (proj s) /\
                 (forall a b, 1 <= a <= _M (proj s0) -> 1 <= b <= _N (proj s0) -> a < k ->
                              cell (proj s) a b = f a b) /\
                 (forall a b, 1 <= a <= _M (proj s0) -> 1 <= b <= _N (proj s0) -> k <= a ->
                              cell (proj s) a b = cell (proj s0) a b))
              body 1 (_M (proj s0)) s0)
    as (s' & Hrun & WF' & Hshape & Hdone & _).
  - lia.
  - split; [exact WF|]. split; [split; reflexivity|].
    split; [intros; lia | intros; reflexivity].
  - intros k cur Hk (WFc & Hsh & Hdone & Hrest).
    destruct (Hstep k cur Hk WFc Hsh Hrest) as (cur' & Hb & WFc' & Hsh' & Hc').
    exists cur'. split; [exact Hb|]. split; [exact WFc'|]. split; [exact Hsh'|].
    split.
    + intros a b Ha Hb' Hlt. rewrite Hc' by assumption.
      destruct (Z.eqb_spec a k) as [->|Hne]; [reflexivity|]. apply Hdone; auto. lia.
    + intros a b Ha Hb' Hle. rewrite Hc' by assumption.
      destruct (Z.eqb_spec a k) as [->|Hne]; [lia|]. apply Hrest; auto. lia.
  - exists s'. split; [exact Hrun|]. split; [exact WF'|]. split; [exact Hshape|].
    intros a b Ha Hb. apply Hdone; auto. lia.
Qed.

Lemma fill_cells (res0 : numerical_table T) (g : Z -> Z -> T)
      (columns : numerical_table T -> Z)
      (body : Z -> Z -> numerical_table T -> outcome (numerical_table T)) :
  table_wf res0 ->
  (forall res, same_shape res0 res -> columns res = _N res0) ->
  (forall i j res, 1 <= i <= _M res0 -> 1 <= j <= _N res0 ->
                   table_wf res -> same_shape res0 res ->
                   body i j res = Table.set_element res i j (g i j)) ->
  exists res',
    for_loop 1 (_M res0)
      (fun i result => for_loop 1 (columns result) (fun j result => body i j result) result)
      res0
    = Val res' /\
    table_wf res' /\ same_shape res0 res' /\
    forall i j, 1 <= i <= _M res0 -> 1 <= j <= _N res0 -> cell res' i j = g i j.
Proof.
  intros WF Hcolumns Hbody. pose proof WF as (H1 & H2 & _).
  set (Inv := fun (row col : Z) (res : numerical_table T) =>
         table_wf res /\ same_shape res0 res /\
         forall a b, 1 <= a <= _M res0 -> 1 <= b <= _N res0 ->
                     (a < row \/ (a = row /\ b < col)) -> cell res a b = g a b).
  destruct (for_loop_invariant (fun row res => Inv row 1 res)
              (fun i result =>
                 for_loop 1 (columns result) (fun j result => body i j result) result)
              1 (_M res0) res0)
    as (res' & Hrun & WF' & Hsh & Hc).
  - lia.
  - split; [exact WF|]. split; [split; reflexivity|]. intros; lia.
  - intros row res Hrow Hinv.
    rewrite (Hcolumns res) by apply Hinv.
    destruct (for_loop_invariant (fun col res => Inv row col res)
                (fun j result => body row j result) 1 (_N res0) res)
      as (res1 & Hrun1 & WF1 & Hsh1 & Hc1).
    + lia.
    + exact Hinv.
    + intros col cur Hcol (WFc & [HMc HNc] & Hcc).
      rewrite Hbody by (try assumption; split; assumption).
      rewrite set_element_stored by (try assumption; lia).
      eexists. split; [reflexivity|].
      split; [apply stored_wf; assumption|]. split; [split; assumption|].
      intros a b Ha Hb Hlt.
      rewrite stored_cell by (try assumption; lia).
      destruct (Z.eqb_spec a row) as [->|Ha']; destruct (Z.eqb_spec b col) as [->|Hb'];
        cbn [andb]; try reflexivity; apply Hcc; try assumption; lia.
    + exists res1. split; [exact Hrun1|]. split; [exact WF1|]. split; [exact Hsh1|].
      intros a b Ha Hb Hlt. apply Hc1; try assumption. lia.
  - exists res'. split; [exact Hrun|]. split; [exact WF'|]. split; [exact Hsh|].
    intros i j Hi Hj. apply Hc; try assumption. lia.
Qed.

Lemma times_length (v : list T) (k : T) : length (Sequence.times v k) = length v.
Proof. unfold Sequence.times. apply length_map. Qed.

Lemma times_nth (v : list T) (k : T) (n : nat) :
  (n < length v)%nat ->
  nth n (Sequence.times v k) e_zero = e_mul (nth n v e_zero) k.
Proof.
  intros Hn. unfold Sequence.times.
  rewrite (nth_indep _ e_zero (e_mul e_zero k)) by (rewrite length_map; assumption).
  apply (map_nth (fun i => e_mul i k)).
Qed.

Lemma add_loop_length (s1 : list T) : forall s2, length (Sequence.add_loop s1 s2) = length s1.
Proof.
  induction s1 as [|a s1 IH]; intros [|b s2]; simpl; auto.
Qed.

Lemma add_loop_nth (s1 : list T) : forall s2 n,
  length s1 = length s2 -> (n < length s1)%nat ->
  nth n (Sequence.add_loop s1 s2) e_zero = e_add (nth n s1 e_zero) (nth n s2 e_zero).
Proof.
  induction s1 as [|a s1 IH]; intros [|b s2] n Hlen Hn; simpl in *; try lia.
  destruct n as [|n]; [reflexivity|]. apply IH; lia.
Qed.

End TableLoops.

(** ** Sequences, cofactors and the matrix operations *)

Section MatrixUse.
Context {T : Type} {E : Element T}.

(** [algebraic_complement_minor(i, j)] throws [bad_optional_access] where
    [m_i_j] is absent.  Otherwise it is the minor with every element
    multiplied by [T(-1)] when [i + j] is odd, and the minor itself when
    [i + j] is even. *)
Theorem algebraic_complement_minor_negates (d : det T) (i j : Z) :
  well_formed d ->
  (i < 1 \/ i > Det.get_N d \/ j < 1 \/ j > Det.get_N d \/ Det.get_N d = 1 ->
   Det.algebraic_complement_minor d i j = Throw bad_optional_access) /\
  (2 <= Det.get_N d -> 1 <= i <= Det.get_N d -> 1 <= j <= Det.get_N d ->
   exists m c,
     Det.m_i_j d i j = Val (Some m) /\
     Det.algebraic_complement_minor d i j = Val (Some c) /\
     well_formed c /\ Det.get_N c = Det.get_N d - 1 /\
     forall a b, 1 <= a <= Det.get_N d - 1 -> 1 <= b <= Det.get_N d - 1 ->
       cell (_nt c) a b
       = if Z.odd (i + j) then e_mul (cell (_nt m) a b) (e_neg e_one)
         else cell (_nt m) a b).
Proof.
  intros WFd. split.
  - intros H. unfold Det.algebraic_complement_minor.
    rewrite (m_i_j_absent d i j H). reflexivity.
  - intros HN2 Hi Hj.
    destruct (m_i_j_cells d i j WFd HN2 Hi Hj) as (m & Hm & WFm & HNm & _).
    exists m. unfold Det.algebraic_complement_minor. rewrite Hm. cbn [bind value].
    assert (H64 : Det.get_N d < 2 ^ 32).
    { destruct WFd as (A & B & C & D). unfold Det.get_N, Table.get_M.
      change (2 ^ 64) with (2 ^ 32 * 2 ^ 32) in C. nia. }
    rewrite wrap_small by lia. rewrite Zmod_odd.
    destruct (Z.odd (i + j)); cbn [Z.eqb Pos.eqb].
    + pose proof (well_formed_table m WFm) as WFt.
      pose proof WFm as (A & HNMm & C & D).
      destruct (rows_loop _nt m
                  (fun row result =>
                     r <- Det.get_row result row ;;
                     line <- deref r ;;
                     Det.set_row result row (Sequence.times line (e_neg e_one)))
                  (fun a b => e_mul (cell (_nt m) a b) (e_neg e_one)) WFt)
        as (c & Hrun & WFc & [HMc HNc] & Hc).
      * intros k cur Hk WFcur [HMcur HNcur] Hsame.
        unfold Det.get_row. rewrite get_row_row_of by (try assumption; lia).
        cbn [bind deref].
        destruct (set_row_cells (_nt cur) k (Sequence.times (row_of (_nt cur) k) (e_neg e_one))
                    WFcur ltac:(lia))
          as (t' & Hset & WF' & [HM' HN'] & Hc').
        { unfold vec_size. rewrite times_length, row_of_length. destruct WFcur. lia. }
        exists {| _nt := t' |}. unfold Det.set_row. rewrite Hset.
        split; [reflexivity|]. cbn [_nt]. split; [exact WF'|]. split; [split; lia|].
        intros a b Ha Hb. rewrite Hc' by lia.
        destruct (Z.eqb_spec a k) as [->|]; [|reflexivity].
        rewrite times_nth by (rewrite row_of_length; lia).
        rewrite row_of_nth by lia. rewrite Hsame by (try assumption; lia). reflexivity.
      * exists c. unfold Det.get_N, Table.get_M in *. rewrite Hrun.
        split; [reflexivity|]. split; [reflexivity|].
        split.
        { destruct WFc as (A' & B' & C' & D'). unfold well_formed.
          rewrite HNc, HMc in *. rewrite HNMm in *. repeat split; lia. }
        split; [lia|].
        intros a b Ha Hb. apply Hc; lia.
    + exists m. split; [reflexivity|]. split; [reflexivity|].
      split; [exact WFm|]. split; [exact HNm|]. reflexivity.
Qed.

Lemma matrix_det_not_square (m : matrix T) :
  _M m <> _N m -> Matrix.det m = Val None.
Proof.
  intros Hsq. unfold Matrix.det, Table.square_matrix, Table.get_M, Table.get_N.
  destruct (Z.eqb_spec (_M m) (_N m)); [contradiction | reflexivity].
Qed.

Lemma matrix_det_square (m : matrix T) :
  table_wf m -> _M m = _N m -> Matrix.det m = Val (Some {| _nt := m |}).
Proof.
  intros WF Hsq. pose proof WF as (H1 & H2 & H3 & H4).
  unfold Matrix.det, Table.square_matrix, Table.get_M, Table.get_N.
  - rewrite Hsq, Z.eqb_refl. cbn [negb].
    unfold Det.make. rewrite make_table by (rewrite <- ?Hsq; lia). cbn [bind].
    destruct (rows_loop _nt
                {| _nt := {| _M := _N m; _N := _N m;
                             _data := vec_resize e_zero (_N m * _N m) [e_zero] |} |}
                (fun i result =>
                   r <- Table.get_row m i ;;
                   v <- value r ;;
                   Det.set_row result i v)
                (fun a b => cell m a b))
      as (s' & Hrun & WF' & [HM' HN'] & Hc).
    + cbn [_nt]. apply made_wf; rewrite <- ?Hsq; lia.
    + cbn [_nt _M _N]. intros k cur Hk WFcur [HMcur HNcur] _.
      cbn [_nt _M _N] in *.
      rewrite get_row_row_of by (try assumption; lia). cbn [bind value].
      destruct (set_row_cells (_nt cur) k (row_of m k) WFcur ltac:(lia))
        as (t' & Hset & WFt' & [HMt HNt] & Hct).
      { unfold vec_size. rewrite row_of_length. lia. }
      exists {| _nt := t' |}. unfold Det.set_row. rewrite Hset.
      split; [reflexivity|]. cbn [_nt]. split; [exact WFt'|].
      split; [split; cbn [_M _N]; lia|].
      intros a b Ha Hb. rewrite Hct by lia.
      destruct (Z.eqb_spec a k) as [->|]; [|reflexivity].
      apply row_of_nth. lia.
    + destruct s' as [t']. cbn [_nt _M _N] in *. rewrite Hrun. cbn [bind noexcept].
      assert (t' = m) as ->; [|reflexivity].
      apply table_ext; [assumption | assumption | split; lia |].
      intros i j Hi Hj. apply Hc; lia.
Qed.

(** [det()] of a matrix: absent when the matrix is not square; for a
    square matrix, the determinant over the same table of elements. *)
Theorem matrix_det_same_table (m : matrix T) :
  table_wf m ->
  (_M m <> _N m -> Matrix.det m = Val None) /\
  (_M m = _N m -> Matrix.det m = Val (Some {| _nt := m |})).
Proof.
  intros WF. split; [apply matrix_det_not_square | apply matrix_det_square; assumption].
Qed.

Lemma times_assign_cells (m : matrix T) (t : T) :
  table_wf m -> e_eqb t e_zero = false ->
  exists m',
    Matrix.times_assign m t = Val (Some m') /\ table_wf m' /\ same_shape m m' /\
    forall i j, 1 <= i <= _M m -> 1 <= j <= _N m ->
      cell m' i j = e_mul (cell m i j) t.
Proof.
  intros WF Ht.
  destruct (rows_loop (fun x => x) m
              (fun i m =>
                 r <- Table.get_row m i ;;
                 v <- deref r ;;
                 Table.set_row m i (Sequence.times v t))
              (fun a b => e_mul (cell m a b) t) WF)
    as (m' & Hrun & WF' & Hsh & Hc).
  - intros k cur Hk WFcur [HMcur HNcur] Hsame.
    rewrite get_row_row_of by (try assumption; lia). cbn [bind deref].
    destruct (set_row_cells cur k (Sequence.times (row_of cur k) t) WFcur ltac:(lia))
      as (t' & Hset & WF' & [HM' HN'] & Hc').
    { unfold vec_size. rewrite times_length, row_of_length. destruct WFcur. lia. }
    exists t'. split; [exact Hset|]. split; [exact WF'|]. split; [split; lia|].
    intros a b Ha Hb. rewrite Hc' by lia.
    destruct (Z.eqb_spec a k) as [->|]; [|reflexivity].
    rewrite times_nth by (rewrite row_of_length; lia).
    rewrite row_of_nth by lia. rewrite Hsame by (try assumption; lia). reflexivity.
  - exists m'. unfold Matrix.times_assign, Table.get_M. rewrite Ht, Hrun.
    split; [reflexivity|]. auto.
Qed.

(** The scalar multiple [m * t]: absent when [t] compares equal to 0;
    otherwise the matrix of the same shape with every element multiplied
    by [t]. *)
Theorem matrix_times_scales (m : matrix T) (t : T) :
  table_wf m ->
  (e_eqb t e_zero = true -> Matrix.times m t = Val None) /\
  (e_eqb t e_zero = false ->
   exists m',
     Matrix.times m t = Val (Some m') /\ table_wf m' /\ same_shape m m' /\
     forall i j, 1 <= i <= _M m -> 1 <= j <= _N m ->
       Table.get_element m' i j = Val (Some (e_mul (cell m i j) t))).
Proof.
  intros WF. unfold Matrix.times. split; intros Ht; rewrite Ht; [reflexivity|].
  destruct (times_assign_cells m t WF Ht) as (m' & Hrun & WF' & [HM HN] & Hc).
  exists m'. rewrite Hrun. split; [reflexivity|]. split; [exact WF'|].
  split; [split; assumption|].
  intros i j Hi Hj. rewrite get_element_cell by (try assumption; lia).
  rewrite Hc by assumption. reflexivity.
Qed.

(** [row_times(row, t)]: no effect when [row] is 0 or beyond the last
    row; otherwise the elements of that row are multiplied by [t] and the
    other rows are unchanged. *)
Theorem row_times_scales_row (m : matrix T) (row : Z) (t : T) :
  table_wf m ->
  (row < 1 \/ row > _M m -> Matrix.row_times m row t = Val m) /\
  (1 <= row <= _M m ->
   exists m',
     Matrix.row_times m row t = Val m' /\ table_wf m' /\ same_shape m m' /\
     forall i j, 1 <= i <= _M m -> 1 <= j <= _N m ->
       Table.get_element m' i j
       = Val (Some (if i =? row then e_mul (cell m i j) t else cell m i j))).
Proof.
  intros WF. unfold Matrix.row_times, Table.get_M. split; intros Hrow.
  - destruct (Z.ltb_spec row 1); [reflexivity|].
    destruct (Z.gtb_spec row (_M m)); [reflexivity | lia].
  - destruct (Z.ltb_spec row 1); [lia|]. destruct (Z.gtb_spec row (_M m)); [lia|].
    cbn [orb]. rewrite get_row_row_of by assumption. cbn [bind deref].
    destruct (set_row_cells m row (Sequence.times (row_of m row) t) WF Hrow)
      as (m' & Hset & WF' & [HM HN] & Hc).
    { unfold vec_size. rewrite times_length, row_of_length. destruct WF. lia. }
    exists m'. rewrite Hset. split; [reflexivity|]. split; [exact WF'|].
    split; [split; assumption|].
    intros i j Hi Hj. rewrite get_element_cell by (try assumption; lia).
    rewrite Hc by assumption.
    destruct (Z.eqb_spec i row) as [->|]; [|reflexivity].
    rewrite times_nth by (rewrite row_of_length; lia).
    rewrite row_of_nth by lia. reflexivity.
Qed.

(** [row_add_times_row(row_1, row_2, k)] with both rows in range: each
    element of row [row_1] becomes itself plus [k] times the element below
    or above it in row [row_2]; the other rows are unchanged.  With a row
    index that is 0 or beyond the last row it has no effect. *)
Theorem row_add_times_row_adds (m : matrix T) (row_1 row_2 : Z) (k : T) :
  table_wf m ->
  (row_1 < 1 \/ row_1 > _M m \/ row_2 < 1 \/ row_2 > _M m ->
   Matrix.row_add_times_row m row_1 row_2 k = Val m) /\
  (1 <= row_1 <= _M m -> 1 <= row_2 <= _M m ->
   exists m',
     Matrix.row_add_times_row m row_1 row_2 k = Val m' /\ table_wf m' /\
     same_shape m m' /\
     forall i j, 1 <= i <= _M m -> 1 <= j <= _N m ->
       Table.get_element m' i j
       = Val (Some (if i =? row_1
                    then e_add (cell m row_1 j) (e_mul (cell m row_2 j) k)
                    else cell m i j))).
Proof.
  intros WF. unfold Matrix.row_add_times_row, Table.get_M. split.
  - intros H.
    destruct (Z.ltb_spec row_1 1); [reflexivity|].
    destruct (Z.gtb_spec row_1 (_M m)); [reflexivity|].
    destruct (Z.ltb_spec row_2 1); [reflexivity|].
    destruct (Z.gtb_spec row_2 (_M m)); [reflexivity | lia].
  - intros H1 H2. pose proof WF as (A & B & _).
    destruct (Z.ltb_spec row_1 1); [lia|]. destruct (Z.gtb_spec row_1 (_M m)); [lia|].
    destruct (Z.ltb_spec row_2 1); [lia|]. destruct (Z.gtb_spec row_2 (_M m)); [lia|].
    cbn [orb]. rewrite !get_row_row_of by assumption. cbn [bind deref].
    unfold Sequence.plus, vec_size.
    rewrite times_length, !row_of_length, Z.eqb_refl. cbn [bind deref].
    destruct (set_row_cells m row_1
                (Sequence.add_loop (row_of m row_1) (Sequence.times (row_of m row_2) k))
                WF H1)
      as (m' & Hset & WF' & [HM HN] & Hc).
    { unfold vec_size. rewrite add_loop_length, row_of_length. lia. }
    exists m'. rewrite Hset. split; [reflexivity|]. split; [exact WF'|].
    split; [split; assumption|].
    intros i j Hi Hj. rewrite get_element_cell by (try assumption; lia).
    rewrite Hc by assumption.
    destruct (Z.eqb_spec i row_1) as [->|]; [|reflexivity].
    rewrite add_loop_nth
      by (rewrite ?times_length, !row_of_length; lia).
    rewrite times_nth by (rewrite row_of_length; lia).
    rewrite !row_of_nth by lia. reflexivity.
Qed.


End MatrixUse.

(** ** The adjoint and the inverse *)

Section Adjoint.
Context {T : Type} {E : Element T}.

Lemma general_calculate_value (d : det T) (fuel : nat) :
  well_formed d ->
  (fact (Z.to_nat (Det.get_N d)) <= fuel)%nat ->
  Det.general_calculate fuel d = Val (Leibniz.expansion d).
Proof.
  intros WF Hfuel.
  assert (H1 : 1 <= Det.get_N d) by (destruct WF as (H1 & _); exact H1).
  unfold Det.general_calculate, Leibniz.expansion.
  destruct (Det.get_N d =? 1) eqn:EN.
  - rewrite (get_element_entry d WF) by lia. reflexivity.
  - pose proof (run_perms_of (Z.to_nat (Det.get_N d)) (Std.iota (Det.get_N d))
                  (iota_length _) (iota_sorted _)) as Hrun.
    rewrite (gc_loop_run d WF _ _ _ Hrun); [reflexivity | | |].
    + rewrite next_permutation_last by apply iota_sorted. reflexivity.
    + intros p Hp. apply perms_of_permutation in Hp; [|apply iota_length].
      split.
      * rewrite (Permutation_length Hp), iota_length. lia.
      * intros j Hj. apply (Permutation_in j Hp) in Hj.
        rewrite iota_range in Hj. apply range_bounds in Hj. lia.
    + rewrite perms_of_length by apply iota_length. assumption.
Qed.

Lemma adjoint_cells (fuel : nat) (m : matrix T) :
  table_wf m -> _M m = _N m -> 2 <= _M m ->
  (fact (Z.to_nat (_M m - 1)) <= fuel)%nat ->
  exists a,
    Matrix.adjoint fuel m = Val (Some a) /\ table_wf a /\ same_shape m a /\
    forall i j, 1 <= i <= _M m -> 1 <= j <= _N m ->
      exists minor,
        Det.m_i_j {| _nt := m |} i j = Val (Some minor) /\
        cell a i j = Leibniz.expansion minor.
Proof.
  intros WF Hsq H2 Hfuel. pose proof WF as (A & B & C & D).
  assert (WFd : well_formed {| _nt := m |}) by (apply table_well_formed; [assumption | lia]).
  unfold Matrix.adjoint, Matrix.make, Table.get_M, Table.get_N.
  rewrite Hsq, Z.eqb_refl. cbn [negb].
  destruct (Z.eqb_spec (_N m) 1); [lia|]. cbn [orb].
  rewrite make_table by lia. cbn [bind].
  rewrite matrix_det_square by assumption. cbn [bind value].
  set (g := fun i j =>
         match Det.m_i_j {| _nt := m |} i j with
         | Val (Some minor) => Leibniz.expansion minor
         | _ => e_zero
         end).
  destruct (fill_cells
              {| _M := _N m; _N := _N m; _data := vec_resize e_zero (_N m * _N m) [e_zero] |}
              g (fun _ => _N m)
              (fun i j result =>
                 noexcept
                   (ttdet <- Det.m_i_j {| _nt := m |} i j ;;
                    minor <- value ttdet ;;
                    v <- Det.general_calculate fuel minor ;;
                    Table.set_element result i j v)))
    as (a & Hrun & WFa & [HMa HNa] & Hc).
  - apply made_wf; lia.
  - intros; reflexivity.
  - cbn [_M _N]. intros i j res Hi Hj WFres [HMr HNr]. cbn [_M _N] in *.
    destruct (m_i_j_cells {| _nt := m |} i j WFd) as (minor & Hm & WFm & HNm & _);
      [unfold Det.get_N, Table.get_M; cbn [_nt]; lia ..|].
    unfold g. rewrite Hm. cbn [bind value].
    rewrite general_calculate_value; [| exact WFm |].
    + cbn [bind]. rewrite set_element_stored by (try assumption; lia). reflexivity.
    + rewrite HNm. unfold Det.get_N, Table.get_M. cbn [_nt]. exact Hfuel.
  - cbn [_M _N] in *. rewrite Hrun. exists a.
    split; [reflexivity|]. split; [exact WFa|]. split; [split; lia|].
    intros i j Hi Hj.
    destruct (m_i_j_cells {| _nt := m |} i j WFd) as (minor & Hm & _);
      [unfold Det.get_N, Table.get_M; cbn [_nt]; lia ..|].
    exists minor. split; [exact Hm|].
    rewrite Hc by lia. unfold g. rewrite Hm. reflexivity.
Qed.

(** [adjoint()] is absent for a matrix that is not square or has a single
    row.  For a square matrix of order at least 2 it is the matrix of the
    same order whose element (i, j) is the permutation expansion of the
    minor [m_i_j(i, j)] of the matrix's determinant; (N - 1)! rounds of
    the permutation loop are enough. *)
Theorem adjoint_of_minors (fuel : nat) (m : matrix T) :
  table_wf m ->
  (_M m <> _N m \/ _M m = 1 -> Matrix.adjoint fuel m = Val None) /\
  (_M m = _N m -> 2 <= _M m -> (fact (Z.to_nat (_M m - 1)) <= fuel)%nat ->
   exists a,
     Matrix.adjoint fuel m = Val (Some a) /\ table_wf a /\ same_shape m a /\
     forall i j, 1 <= i <= _M m -> 1 <= j <= _N m ->
       exists minor,
         Det.m_i_j {| _nt := m |} i j = Val (Some minor) /\
         Table.get_element a i j = Val (Some (Leibniz.expansion minor))).
Proof.
  intros WF. split.
  - intros H. unfold Matrix.adjoint, Table.get_M, Table.get_N.
    destruct (Z.eqb_spec (_M m) (_N m)) as [Heq|]; [|reflexivity]. cbn [negb].
    destruct H as [H|H]; [contradiction|]. rewrite H. reflexivity.
  - intros Hsq H2 Hfuel.
    destruct (adjoint_cells fuel m WF Hsq H2 Hfuel) as (a & Ha & WFa & [HM HN] & Hc).
    exists a. split; [exact Ha|]. split; [exact WFa|]. split; [split; assumption|].
    intros i j Hi Hj. destruct (Hc i j Hi Hj) as (minor & Hm & Hcell).
    exists minor. split; [exact Hm|].
    rewrite get_element_cell by (try assumption; lia). rewrite Hcell. reflexivity.
Qed.

(** [inverse()]: absent for a matrix that is not square;
    [bad_optional_access] for a 1-by-1 matrix; for a square matrix of
    order at least 2, the scalar multiple of [adjoint()] by
    [1 / general_calculate()] of the matrix's determinant -- which is
    absent exactly when that quotient compares equal to 0. *)
Theorem inverse_is_scaled_adjoint (fuel : nat) (m : matrix T) :
  table_wf m ->
  (_M m <> _N m -> Matrix.inverse fuel m = Val None) /\
  (_M m = 1 -> _N m = 1 -> Matrix.inverse fuel m = Throw bad_optional_access) /\
  (_M m = _N m -> 2 <= _M m -> (fact (Z.to_nat (_M m)) <= fuel)%nat ->
   exists a,
     Matrix.adjoint fuel m = Val (Some a) /\
     Matrix.inverse fuel m
     = Matrix.times a (e_div e_one (Leibniz.expansion {| _nt := m |}))).
Proof.
  intros WF. unfold Matrix.inverse. split; [|split].
  - intros Hsq. rewrite matrix_det_not_square by assumption. reflexivity.
  - intros HM HN. rewrite matrix_det_square by (try assumption; lia). cbn [bind].
    unfold Matrix.adjoint, Table.get_M, Table.get_N. rewrite HM, HN. reflexivity.
  - intros Hsq H2 Hfuel.
    assert (Hfuel' : (fact (Z.to_nat (_M m - 1)) <= fuel)%nat).
    { etransitivity; [|exact Hfuel]. apply fact_le. lia. }
    destruct (adjoint_cells fuel m WF Hsq H2 Hfuel') as (a & Ha & _).
    exists a. split; [exact Ha|].
    rewrite matrix_det_square by assumption. cbn [bind]. rewrite Ha. cbn [bind value].
    rewrite general_calculate_value.
    + reflexivity.
    + apply table_well_formed; [assumption | lia].
    + exact Hfuel.
Qed.

End Adjoint.

(** ** Determinants of order 2 over [dbl] *)








(** ** The inversion count *)

Lemma count_less_app (x : Z) (a b : list Z) :
  Z.of_nat (length (filter (fun y => y <? x) (a ++ b)))
  = Z.of_nat (length (filter (fun y => y <? x) a))
    + Z.of_nat (length (filter (fun y => y <? x) b)).
Proof. rewrite filter_app, length_app. lia. Qed.

Lemma inversions_app_exchange (a b : list Z) (x y : Z) :
  x < y ->
  Leibniz.inversions (a ++ y :: x :: b) = Leibniz.inversions (a ++ x :: y :: b) + 1.
Proof.
  intros Hxy. induction a as [|h a IH].
  - cbn [app Leibniz.inversions filter].
    destruct (Z.ltb_spec x y); [|lia]. destruct (Z.ltb_spec y x); [lia|].
    cbn [length]. lia.
  - cbn [app Leibniz.inversions]. rewrite IH, !count_less_app.
    cbn [filter]. destruct (y <? h); destruct (x <? h); cbn [length]; lia.
Qed.

Lemma filter_less_none (x : Z) (q : list Z) :
  (forall z, In z q -> x < z) -> filter (fun y => y <? x) q = [].
Proof.
  induction q as [|z q IH]; intros Hall; [reflexivity|]. cbn [filter].
  destruct (Z.ltb_spec z x).
  - specialize (Hall z (or_introl eq_refl)). lia.
  - apply IH. intros w Hw. apply Hall. simpl; auto.
Qed.

Lemma inversions_sorted (p : list Z) :
  StronglySorted Z.lt p -> Leibniz.inversions p = 0.
Proof.
  induction 1 as [|x q _ IH Hall]; [reflexivity|].
  cbn [Leibniz.inversions]. rewrite IH.
  rewrite filter_less_none; [reflexivity|].
  rewrite Forall_forall in Hall. exact Hall.
Qed.

(** [elements_inverse_number] is 0 on an increasing sequence, and
    exchanging two neighbours that are in increasing order adds exactly 1
    to it: it changes parity with every exchange of neighbours. *)
Theorem elements_inverse_number_exchange (a b : list Z) (x y : Z) :
  x < y ->
  elements_inverse_number (a ++ y :: x :: b)
  = elements_inverse_number (a ++ x :: y :: b) + 1 /\
  (StronglySorted Z.lt (a ++ x :: y :: b) ->
   elements_inverse_number (a ++ x :: y :: b) = 0).
Proof.
  intros Hxy. rewrite !elements_inverse_number_inversions. split.
  - apply inversions_app_exchange. assumption.
  - apply inversions_sorted.
Qed.

Lemma elements_inverse_number_exchange_witness :
  elements_inverse_number ([1] ++ 3 :: 2 :: [4])
  = elements_inverse_number ([1] ++ 2 :: 3 :: [4]) + 1 /\
  (StronglySorted Z.lt ([1] ++ 2 :: 3 :: [4]) ->
   elements_inverse_number ([1] ++ 2 :: 3 :: [4]) = 0).
Proof.
  apply (elements_inverse_number_exchange [1] [4] 2 3). lia.
Defined.

(** ** The solution vector *)

Section Systems.
Context {T : Type} {E : Element T}.

(** A system of at least two rows and a single column has no coefficient
    column: both [calculate] and [calculate_inverse] then ask for a table
    with 0 columns and end in [std::terminate]. *)
Theorem solvers_terminate_on_single_column
        (fuel : nat) (l : LinearEquations.linear_equations T) :
  2 <= _M (LinearEquations._data l) -> _N (LinearEquations._data l) = 1 ->
  LinearEquations.calculate fuel l = Terminate /\
  LinearEquations.calculate_inverse fuel l = Terminate.
Proof.
  intros HM HN.
  unfold LinearEquations.calculate, LinearEquations.calculate_inverse,
    Table.get_M, Table.get_N.
  destruct (Z.leb_spec (_M (LinearEquations._data l)) 1); [lia|].
  rewrite HN. split.
  - reflexivity.
  - unfold Matrix.make, Table.make.
    destruct (Z.eqb_spec (_M (LinearEquations._data l)) 0); reflexivity.
Qed.

End Systems.

Lemma solvers_terminate_on_single_column_witness :
  LinearEquations.calculate 2
    {| LinearEquations._data := Examples.table_2x1; LinearEquations._x := [] |}
  = Terminate /\
  LinearEquations.calculate_inverse 2
    {| LinearEquations._data := Examples.table_2x1; LinearEquations._x := [] |}
  = Terminate.
Proof.
  apply (solvers_terminate_on_single_column 2
           {| LinearEquations._data := Examples.table_2x1; LinearEquations._x := [] |});
    concrete.
Defined.

(** ** Cramer's rule on two equations *)





(** ** The theorems above at concrete inputs *)

Lemma algebraic_complement_minor_negates_witness :
  exists m c,
    Det.m_i_j Examples.det_order_4 1 2 = Val (Some m) /\
    Det.algebraic_complement_minor Examples.det_order_4 1 2 = Val (Some c) /\
    well_formed c /\ Det.get_N c = Det.get_N Examples.det_order_4 - 1 /\
    forall a b, 1 <= a <= Det.get_N Examples.det_order_4 - 1 ->
                1 <= b <= Det.get_N Examples.det_order_4 - 1 ->
      cell (_nt c) a b
      = if Z.odd (1 + 2) then e_mul (cell (_nt m) a b) (e_neg e_one)
        else cell (_nt m) a b.
Proof.
  apply (proj2 (algebraic_complement_minor_negates Examples.det_order_4 1 2
                  ltac:(concrete))); concrete.
Defined.

Lemma matrix_det_same_table_witness :
  Matrix.det Examples.matrix_1234 = Val (Some {| _nt := Examples.matrix_1234 |}).
Proof.
  apply (proj2 (matrix_det_same_table Examples.matrix_1234 ltac:(concrete))). concrete.
Defined.

Lemma matrix_times_scales_witness :
  exists m',
    Matrix.times Examples.matrix_1234 (dz 2) = Val (Some m') /\ table_wf m' /\
    same_shape Examples.matrix_1234 m' /\
    forall i j, 1 <= i <= _M Examples.matrix_1234 -> 1 <= j <= _N Examples.matrix_1234 ->
      Table.get_element m' i j = Val (Some (e_mul (cell Examples.matrix_1234 i j) (dz 2))).
Proof.
  apply (proj2 (matrix_times_scales Examples.matrix_1234 (dz 2) ltac:(concrete))).
  concrete.
Defined.

Lemma row_times_scales_row_witness :
  exists m',
    Matrix.row_times Examples.matrix_1234 2 (dz 5) = Val m' /\ table_wf m' /\
    same_shape Examples.matrix_1234 m' /\
    forall i j, 1 <= i <= _M Examples.matrix_1234 -> 1 <= j <= _N Examples.matrix_1234 ->
      Table.get_element m' i j
      = Val (Some (if i =? 2 then e_mul (cell Examples.matrix_1234 i j) (dz 5)
                   else cell Examples.matrix_1234 i j)).
Proof.
  apply (proj2 (row_times_scales_row Examples.matrix_1234 2 (dz 5) ltac:(concrete))).
  concrete.
Defined.

Lemma row_add_times_row_adds_witness :
  exists m',
    Matrix.row_add_times_row Examples.matrix_1234 2 1 (dz (-3)) = Val m' /\
    table_wf m' /\ same_shape Examples.matrix_1234 m' /\
    forall i j, 1 <= i <= _M Examples.matrix_1234 -> 1 <= j <= _N Examples.matrix_1234 ->
      Table.get_element m' i j
      = Val (Some (if i =? 2
                   then e_add (cell Examples.matrix_1234 2 j)
                              (e_mul (cell Examples.matrix_1234 1 j) (dz (-3)))
                   else cell Examples.matrix_1234 i j)).
Proof.
  apply (proj2 (row_add_times_row_adds Examples.matrix_1234 2 1 (dz (-3))
                  ltac:(concrete))); concrete.
Defined.


Lemma adjoint_of_minors_witness :
  exists a,
    Matrix.adjoint 1 Examples.matrix_1234 = Val (Some a) /\ table_wf a /\
    same_shape Examples.matrix_1234 a /\
    forall i j, 1 <= i <= _M Examples.matrix_1234 -> 1 <= j <= _N Examples.matrix_1234 ->
      exists minor,
        Det.m_i_j {| _nt := Examples.matrix_1234 |} i j = Val (Some minor) /\
        Table.get_element a i j = Val (Some (Leibniz.expansion minor)).
Proof.
  apply (proj2 (adjoint_of_minors 1 Examples.matrix_1234 ltac:(concrete))); concrete.
Defined.

Lemma inverse_is_scaled_adjoint_witness :
  exists a,
    Matrix.adjoint 2 Examples.matrix_1234 = Val (Some a) /\
    Matrix.inverse 2 Examples.matrix_1234
    = Matrix.times a (e_div e_one (Leibniz.expansion {| _nt := Examples.matrix_1234 |})).
Proof.
  apply (proj2 (proj2 (inverse_is_scaled_adjoint 2 Examples.matrix_1234 ltac:(concrete))));
    concrete.
Defined.
